(** * Cilium label model: parsing, set operations and canonical serialization

    A shallow embedding of package [labels] (the vendored Cilium label
    library) and the properties of its textual parser, of the label-set
    operations and of the sorted serialization used as a key-value-store
    key.

    Go strings are byte sequences: they are modelled by [string] (a list of
    8-bit [ascii] characters).  Go [int] indices are modelled in [Z].  A
    run-time panic (index or slice out of range, write to a nil map) is the
    [None] of the option monad. *)

From Stdlib Require Import ZArith Lia.
From Stdlib.Strings Require Import Ascii String Byte.
From stdpp Require Import base option list sorting gmap strings fin_maps.

Local Open Scope string_scope.
Local Open Scope Z_scope.

(** ** Go string primitives *)

Module GoString.

(** [len(s)] *)
Definition len (s : string) : Z := Z.of_nat (String.length s).

Fixpoint drop (n : nat) (s : string) : string :=
  match n, s with
  | O, _ => s
  | S n', String _ s' => drop n' s'
  | S _, EmptyString => EmptyString
  end.

Fixpoint take (n : nat) (s : string) : string :=
  match n, s with
  | S n', String a s' => String a (take n' s')
  | _, _ => EmptyString
  end.

(** [s[i]]: panics unless [0 <= i < len(s)]. *)
Definition index (s : string) (i : Z) : option ascii :=
  if (0 <=? i) && (i <? len s) then String.get (Z.to_nat i) s else None.

(** [s[lo:hi]]: panics unless [0 <= lo <= hi <= len(s)]. *)
Definition slice (s : string) (lo hi : Z) : option string :=
  if (0 <=? lo) && (lo <=? hi) && (hi <=? len s)
  then Some (take (Z.to_nat (hi - lo)) (drop (Z.to_nat lo) s))
  else None.

(** [s[lo:]] *)
Definition slice_from (s : string) (lo : Z) : option string :=
  slice s lo (len s).

(** [s[:hi]] *)
Definition slice_to (s : string) (hi : Z) : option string :=
  slice s 0 hi.

(** [strings.IndexByte(s, c)]: index of the first [c] in [s], or [-1]. *)
Fixpoint IndexByte (s : string) (c : ascii) : Z :=
  match s with
  | EmptyString => -1
  | String a s' =>
      if Ascii.eqb a c then 0
      else let i := IndexByte s' c in
           if i <? 0 then -1 else i + 1
  end.

(** [strings.HasPrefix(s, prefix)] is
    [len(s) >= len(prefix) && s[0:len(prefix)] == prefix]. *)
Definition HasPrefix (s prefix : string) : option bool :=
  if len s >=? len prefix
  then p ← slice s 0 (len prefix); Some (bool_decide (p = prefix))
  else Some false.

(** [strings.TrimPrefix(s, prefix)] *)
Definition TrimPrefix (s prefix : string) : option string :=
  b ← HasPrefix s prefix;
  if b : bool then slice_from s (len prefix) else Some s.

(** [fmt.Sprintf] restricted to the verbs the package uses on strings:
    [%s] consumes the next operand, [%%] is a literal percent sign, a
    [%s] without operand prints [%!s(MISSING)]. *)
Fixpoint Sprintf (format : string) (args : list string) : string :=
  match format with
  | EmptyString => EmptyString
  | String "%" (String "s" rest) =>
      match args with
      | a :: args' => a ++ Sprintf rest args'
      | [] => "%!s(MISSING)" ++ Sprintf rest []
      end
  | String "%" (String "%" rest) => String "%" (Sprintf rest args)
  | String c rest => String c (Sprintf rest args)
  end.

End GoString.

Import GoString.

(** ** Constants of the package *)

Definition LabelSourceUnspec : string := "unspec".
Definition LabelSourceAny : string := "any".
Definition LabelSourceK8s : string := "k8s".
Definition LabelSourceContainer : string := "container".
Definition LabelSourceReserved : string := "reserved".
Definition LabelSourceReservedKeyPrefix : string := LabelSourceReserved ++ ".".

(** ** Labels *)

Record Label : Type := mkLabel {
  Key : string;
  Value : string;
  Source : string
}.

Global Instance Label_eq_dec : EqDecision Label.
Proof. solve_decision. Defined.

(** The zero value of the struct: what a named result starts as and what a
    map read yields for an absent key. *)
Definition zeroLabel : Label := {| Key := ""; Value := ""; Source := "" |}.

Global Instance Label_inhabited : Inhabited Label := populate zeroLabel.

Definition IsAnySource (l : Label) : bool :=
  bool_decide (Source l = LabelSourceAny).

Definition IsReservedSource (l : Label) : bool :=
  bool_decide (Source l = LabelSourceReserved).

(** [func (l *Label) Equals(b *Label) bool] *)
Definition Label_Equals (l b : Label) : bool :=
  if negb (IsAnySource l) && negb (bool_decide (Source l = Source b))
  then false
  else bool_decide (Key l = Key b) && bool_decide (Value l = Value b).

(** [func (l Label) FormatForKVStore() string] *)
Definition FormatForKVStore (l : Label) : string :=
  Sprintf "%s:%s=%s;" [Source l; Key l; Value l].

(** [func generateLabelString(source, key, value string) string] *)
Definition generateLabelString (source key value : string) : string :=
  Sprintf "%s:%s=%s" [source; key; value].

(** ** Parsing *)

(** [func parseSource(str string, delim byte) (src, next string)].  The
    right operand of [&&] is evaluated only when the left one holds. *)
Definition parseSource (str : string) (delim : ascii) : option (string * string) :=
  if bool_decide (str = "") then Some ("", "")
  else
    c ← index str 0;
    if bool_decide (c = "$"%char) then
      next ← slice_from str 1; Some (LabelSourceReserved, next)
    else
      let i := IndexByte str delim in
      if i <? 0 then
        hp ← (if negb (bool_decide (delim = "."%char))
              then HasPrefix str LabelSourceReservedKeyPrefix
              else Some false);
        if hp : bool then
          next ← TrimPrefix str LabelSourceReservedKeyPrefix;
          Some (LabelSourceReserved, next)
        else Some ("", str)
      else
        src ← slice_to str i;
        next ← slice_from str (i + 1);
        Some (src, next).

(** [func parseLabel(str string, delim byte) (lbl Label)] *)
Definition parseLabel (str : string) (delim : ascii) : option Label :=
  '(src, next) ← parseSource str delim;
  let lblSource := if negb (bool_decide (src = "")) then src else LabelSourceUnspec in
  let i := IndexByte next "=" in
  if i <? 0 then
    Some {| Key := next; Value := ""; Source := lblSource |}
  else if (i =? 0) && bool_decide (src = LabelSourceReserved) then
    k ← slice_from next (i + 1);
    Some {| Key := k; Value := ""; Source := lblSource |}
  else
    k ← slice_to next i;
    v ← slice_from next (i + 1);
    Some {| Key := k; Value := v; Source := lblSource |}.

(** [func ParseLabel(str string) Label] *)
Definition ParseLabel (str : string) : option Label := parseLabel str ":".

(** [func parseSelectLabel(str string, delim byte) Label] *)
Definition parseSelectLabel (str : string) (delim : ascii) : option Label :=
  lbl ← parseLabel str delim;
  if bool_decide (Source lbl = LabelSourceUnspec)
  then Some {| Key := Key lbl; Value := Value lbl; Source := LabelSourceAny |}
  else Some lbl.

(** [func ParseSelectLabel(str string) Label] *)
Definition ParseSelectLabel (str : string) : option Label := parseSelectLabel str ":".

(** ** Label sets

    [type Labels map[string]Label].  A Go map is a reference: a value of
    type [Labels] is either [nil] or points to a map object in the store,
    and two values that point to the same object see each other's writes. *)

Abbreviation LabelMap := (gmap string Label).
Abbreviation loc := positive.
Abbreviation Store := (gmap loc (gmap string Label)).

Inductive Labels : Type :=
  | LNil
  | LRef (p : loc).

Global Instance Labels_eq_dec : EqDecision Labels.
Proof. solve_decision. Defined.

(** What reading through a map value sees: a nil map reads as empty. *)
Definition contents (σ : Store) (l : Labels) : LabelMap :=
  match l with
  | LNil => ∅
  | LRef p => default ∅ (σ !! p)
  end.

(** [Labels{}]: a new, empty map object. *)
Definition alloc (σ : Store) : loc * Store :=
  let p := fresh (dom σ) in (p, <[p := ∅]> σ).

(** [l[k] = v]: panics on a nil map.  A reference always points to an
    object of the store. *)
Definition map_assign (σ : Store) (l : Labels) (k : string) (v : Label) : option Store :=
  match l with
  | LNil => None
  | LRef p => m ← σ !! p; Some (<[p := <[k := v]> m]> σ)
  end.

(** The read-only methods below take the contents of their receiver; the
    order in which [range] visits a map is unspecified, so each loop is
    defined over an arbitrary enumeration of the entries and instantiated
    with [map_to_list]. *)

(** The loop of [Labels.Equals]; leaving it early returns [false]. *)
Fixpoint Labels_Equals_loop (entries : list (string * Label)) (other : LabelMap) : bool :=
  match entries with
  | [] => true
  | (k, lbl1) :: rest =>
      match other !! k with
      | Some lbl2 =>
          if bool_decide (Source lbl1 = Source lbl2)
             && bool_decide (Key lbl1 = Key lbl2)
             && bool_decide (Value lbl1 = Value lbl2)
          then Labels_Equals_loop rest other
          else false
      | None => false
      end
  end.

(** [func (l Labels) Equals(other Labels) bool] *)
Definition Labels_Equals (l other : LabelMap) : bool :=
  if negb (bool_decide (size l = size other)) then false
  else Labels_Equals_loop (map_to_list l) other.

(** [sort.Strings]: sorts in increasing order; [<] on Go strings compares
    byte by byte.  The library routine is not part of the package; any
    routine that returns a sorted rearrangement returns this list
    ([sort_Strings_unique] below). *)
Definition sort_Strings (keys : list string) : list string :=
  merge_sort String.le keys.

(** [SortedList] for a given visiting order of the first loop. *)
Definition SortedList_from (order : list string) (l : LabelMap) : list byte :=
  let keys := foldl (λ (keys : list string) k, (keys ++ [k])%list) [] order in
  let keys := sort_Strings keys in
  let result :=
    foldl (λ result k, (result ++ FormatForKVStore (l !!! k))%string) "" keys in
  list_byte_of_string result.

(** [func (l Labels) SortedList() []byte] *)
Definition SortedList (l : LabelMap) : list byte :=
  SortedList_from (map_to_list l).*1 l.

(** The loop of [MergeLabels] over the entries of [from]. *)
Fixpoint MergeLabels_loop (σ : Store) (l : Labels) (entries : list (string * Label))
  : option Store :=
  match entries with
  | [] => Some σ
  | (k, v) :: rest => σ' ← map_assign σ l k v; MergeLabels_loop σ' l rest
  end.

(** [func (l Labels) MergeLabels(from Labels)].  When [l] and [from] are
    the same object every write stores the value just read, so visiting a
    snapshot of the entries is what the loop does. *)
Definition MergeLabels (σ : Store) (l from : Labels) : option Store :=
  MergeLabels_loop σ l (map_to_list (contents σ from)).

(** The loop of [FindReserved]. *)
Fixpoint FindReserved_loop (σ : Store) (lbls : Labels) (entries : list (string * Label))
  : option Store :=
  match entries with
  | [] => Some σ
  | (k, lbl) :: rest =>
      if bool_decide (Source lbl = LabelSourceReserved)
      then σ' ← map_assign σ lbls k lbl; FindReserved_loop σ' lbls rest
      else FindReserved_loop σ lbls rest
  end.

(** [func (l Labels) FindReserved() Labels] *)
Definition FindReserved (σ : Store) (l : Labels) : option (Store * Labels) :=
  let entries := map_to_list (contents σ l) in
  let '(p, σ1) := alloc σ in
  let lbls := LRef p in
  σ2 ← FindReserved_loop σ1 lbls entries;
  if bool_decide (0 < size (contents σ2 lbls))%nat
  then Some (σ2, lbls)
  else Some (σ2, LNil).

(** ** Further functions of the package *)

Definition PathDelimiter : string := ".".

(** [func NewLabel(key string, value string, source string) Label] *)
Definition NewLabel (key value source : string) : option Label :=
  '(src, key) ← parseSource key ":";
  let source :=
    if bool_decide (source = "")
    then (if bool_decide (src = "") then LabelSourceUnspec else src)
    else source in
  if bool_decide (src = LabelSourceReserved) && bool_decide (key = "")
  then Some {| Key := value; Value := ""; Source := source |}
  else Some {| Key := key; Value := value; Source := source |}.

(** [func (l *Label) String() string] *)
Definition Label_String (l : Label) : string :=
  if negb (len (Value l) =? 0)
  then (Source l ++ ":" ++ Key l ++ "=" ++ Value l)%string
  else (Source l ++ ":" ++ Key l)%string.

(** [func (l *Label) IsValid() bool] *)
Definition IsValid (l : Label) : bool := negb (bool_decide (Key l = "")).

(** [func (l *Label) GetExtendedKey() string] *)
Definition GetExtendedKey (l : Label) : string :=
  (Source l ++ PathDelimiter ++ Key l)%string.

(** [func GetCiliumKeyFrom(extKey string) string] *)
Definition GetCiliumKeyFrom (extKey : string) : option string :=
  d ← index PathDelimiter 0;
  let i := IndexByte extKey d in
  if i >=? 0 then
    src ← slice_to extKey i;
    key ← slice_from extKey (i + 1);
    Some (src ++ ":" ++ key)%string
  else Some (LabelSourceAny ++ ":" ++ extKey)%string.

(** [func GetExtendedKeyFrom(str string) string] *)
Definition GetExtendedKeyFrom (str : string) : option string :=
  '(src, next) ← parseSource str ":";
  let src := if bool_decide (src = "") then LabelSourceAny else src in
  let i := IndexByte next "=" in
  if i >=? 0 then
    key ← slice_to next i;
    Some (src ++ PathDelimiter ++ key)%string
  else Some (src ++ PathDelimiter ++ next)%string.

(** [func GenerateK8sLabelString(k, v string) string] *)
Definition GenerateK8sLabelString (k v : string) : string :=
  generateLabelString LabelSourceK8s k v.

(** [strings.Split(s, sep)] for a separator of one byte, the only use the
    package makes of it: the pieces of [s] between the separators. *)
Fixpoint Split (s : string) (sep : ascii) : list string :=
  match s with
  | EmptyString => [EmptyString]
  | String c s' =>
      if Ascii.eqb c sep then EmptyString :: Split s' sep
      else match Split s' sep with
           | piece :: pieces => String c piece :: pieces
           | [] => [String c EmptyString]
           end
  end.

(** The loop of [Labels.IsReserved]; leaving it early returns [true]. *)
Fixpoint IsReserved_loop (entries : list (string * Label)) : bool :=
  match entries with
  | [] => false
  | (_, lbl) :: rest =>
      if bool_decide (Source lbl = LabelSourceReserved) then true
      else IsReserved_loop rest
  end.

(** [func (l Labels) IsReserved() bool] *)
Definition IsReserved (l : LabelMap) : bool := IsReserved_loop (map_to_list l).

(** [func (l Labels) GetModel() []string], for a given visiting order. *)
Definition GetModel_from (entries : list (string * Label)) : list string :=
  foldl (λ (res : list string) e, (res ++ [Label_String e.2])%list) [] entries.

Definition GetModel (l : LabelMap) : list string := GetModel_from (map_to_list l).

(** [func (l Labels) StringMap() map[string]string], for a given visiting
    order; the result is a new map, given by its contents. *)
Definition StringMap_from (entries : list (string * Label)) : gmap string string :=
  foldl (λ (o : gmap string string) e,
           <[(Source e.2 ++ ":" ++ Key e.2)%string := Value e.2]> o) ∅ entries.

Definition StringMap (l : LabelMap) : gmap string string :=
  StringMap_from (map_to_list l).

(** The loop of [GetFromSource]. *)
Fixpoint GetFromSource_loop (σ : Store) (lbls : Labels) (source : string)
    (entries : list (string * Label)) : option Store :=
  match entries with
  | [] => Some σ
  | (k, v) :: rest =>
      if bool_decide (Source v = source)
      then σ' ← map_assign σ lbls k v; GetFromSource_loop σ' lbls source rest
      else GetFromSource_loop σ lbls source rest
  end.

(** [func (l Labels) GetFromSource(source string) Labels] *)
Definition GetFromSource (σ : Store) (l : Labels) (source : string)
  : option (Store * Labels) :=
  let entries := map_to_list (contents σ l) in
  let '(p, σ1) := alloc σ in
  let lbls := LRef p in
  σ2 ← GetFromSource_loop σ1 lbls source entries;
  Some (σ2, lbls).

(** The loop of [AppendPrefixInKey]. *)
Fixpoint AppendPrefixInKey_loop (σ : Store) (newLabels : Labels) (prefix : string)
    (entries : list (string * Label)) : option Store :=
  match entries with
  | [] => Some σ
  | (k, v) :: rest =>
      σ' ← map_assign σ newLabels (prefix ++ k)%string
             {| Key := (prefix ++ Key v)%string; Value := Value v; Source := Source v |};
      AppendPrefixInKey_loop σ' newLabels prefix rest
  end.

(** [func (l Labels) AppendPrefixInKey(prefix string) Labels] *)
Definition AppendPrefixInKey (σ : Store) (l : Labels) (prefix : string)
  : option (Store * Labels) :=
  let entries := map_to_list (contents σ l) in
  let '(p, σ1) := alloc σ in
  let newLabels := LRef p in
  σ2 ← AppendPrefixInKey_loop σ1 newLabels prefix entries;
  Some (σ2, newLabels).

(** The loop of [Map2Labels]. *)
Fixpoint Map2Labels_loop (σ : Store) (o : Labels) (source : string)
    (entries : list (string * string)) : option Store :=
  match entries with
  | [] => Some σ
  | (k, v) :: rest =>
      l ← NewLabel k v source;
      σ' ← map_assign σ o (Key l) l;
      Map2Labels_loop σ' o source rest
  end.

(** [func Map2Labels(m map[string]string, source string) Labels], for a
    given visiting order of [m]. *)
Definition Map2Labels_from (entries : list (string * string)) (σ : Store)
    (source : string) : option (Store * Labels) :=
  let '(p, σ1) := alloc σ in
  let o := LRef p in
  σ2 ← Map2Labels_loop σ1 o source entries;
  Some (σ2, o).

Definition Map2Labels (σ : Store) (m : gmap string string) (source : string)
  : option (Store * Labels) :=
  Map2Labels_from (map_to_list m) σ source.

(** The loop of [NewLabelsFromModel]. *)
Fixpoint NewLabelsFromModel_loop (σ : Store) (lbls : Labels) (base : list string)
  : option Store :=
  match base with
  | [] => Some σ
  | v :: rest =>
      lbl ← ParseLabel v;
      if negb (bool_decide (Key lbl = ""))
      then σ' ← map_assign σ lbls (Key lbl) lbl; NewLabelsFromModel_loop σ' lbls rest
      else NewLabelsFromModel_loop σ lbls rest
  end.

(** [func NewLabelsFromModel(base []string) Labels] *)
Definition NewLabelsFromModel (σ : Store) (base : list string)
  : option (Store * Labels) :=
  let '(p, σ1) := alloc σ in
  let lbls := LRef p in
  σ2 ← NewLabelsFromModel_loop σ1 lbls base;
  Some (σ2, lbls).

(** [func NewLabelsFromSortedList(list string) Labels] *)
Definition NewLabelsFromSortedList (σ : Store) (list : string)
  : option (Store * Labels) :=
  NewLabelsFromModel σ (Split list ";").

(** ** Label sets and stores of the worked examples *)

Definition labels_a : gmap string Label :=
  {[ "a" := mkLabel "a" "1" "k8s" ]}.

Definition labels_b : gmap string Label :=
  {[ "b" := mkLabel "b" "2" "k8s" ]}.

Definition labels_ab : gmap string Label :=
  {[ "a" := mkLabel "a" "1" "k8s"; "b" := mkLabel "b" "2" "k8s" ]}.

Definition merge_destination : gmap string Label :=
  {[ "x" := mkLabel "x" "1" "container"; "y" := mkLabel "y" "3" "k8s" ]}.

Definition merge_source : gmap string Label :=
  {[ "x" := mkLabel "x" "2" "k8s" ]}.

Definition merge_store : gmap positive (gmap string Label) :=
  {[ 1%positive := merge_destination; 2%positive := merge_source ]}.

Definition equals_in_key_example : gmap string Label :=
  {[ "a=b" := mkLabel "a=b" "v" "k8s"; "host" := mkLabel "host" "" "reserved" ]}.

Definition canonical_example : gmap string Label :=
  {[ "app" := mkLabel "app" "web" "k8s"; "host" := mkLabel "host" "" "reserved" ]}.

(** ** Vocabulary of the statements *)

(** Strict lexicographic order on byte sequences, by byte value. *)
Fixpoint bytes_lt (a b : list byte) : bool :=
  match a, b with
  | _, [] => false
  | [], _ :: _ => true
  | x :: a', y :: b' =>
      (Byte.to_N x <? Byte.to_N y)%N
      || ((Byte.to_N x =? Byte.to_N y)%N && bytes_lt a' b')
  end.

Definition key_lt (j k : string) : Prop :=
  bytes_lt (list_byte_of_string j) (list_byte_of_string k) = true.

(** The map after the writes [m[k] = v] for the given entries, in order. *)
Definition write_all (m : gmap string Label) (entries : list (string * Label))
  : gmap string Label :=
  foldl (λ m e, <[e.1 := e.2]> m) m entries.

Definition is_reserved (e : string * Label) : Prop :=
  Source e.2 = LabelSourceReserved.

Global Instance is_reserved_dec e : Decision (is_reserved e).
Proof. unfold is_reserved. apply _. Defined.

(** Two labels agree on the three fields. *)
Definition same_fields (a b : Label) : Prop :=
  Key a = Key b ∧ Value a = Value b ∧ Source a = Source b.

(** The record of one label in the key-value-store format. *)
Definition kv_record (lbl : Label) : string :=
  (Source lbl ++ ":" ++ Key lbl ++ "=" ++ Value lbl ++ ";")%string.

(** Records written one after the other, nothing in between. *)
Definition join_records (records : list string) : string :=
  foldr String.append "" records.

(** The data-model invariant of a label set: every label is stored under
    its own key. *)
Definition stored_under_key (l : gmap string Label) : Prop :=
  ∀ k lbl, l !! k = Some lbl → Key lbl = k.

(** A label whose textual forms split back into its fields: the source is
    not empty and holds neither a colon nor a dollar sign, the key is not
    empty and holds no equals sign. *)
Definition printable (lbl : Label) : Prop :=
  Source lbl ≠ ""
  ∧ (":"%char ∉ list_ascii_of_string (Source lbl))
  ∧ ("$"%char ∉ list_ascii_of_string (Source lbl))
  ∧ Key lbl ≠ ""
  ∧ ("="%char ∉ list_ascii_of_string (Key lbl)).

(** A label whose text [source:key] splits back into source and key: the
    source is not empty and holds neither a colon nor a dollar sign, the
    key is not empty. *)
Definition source_splits (lbl : Label) : Prop :=
  Source lbl ≠ ""
  ∧ (":"%char ∉ list_ascii_of_string (Source lbl))
  ∧ ("$"%char ∉ list_ascii_of_string (Source lbl))
  ∧ Key lbl ≠ "".

(** No field holds the record terminator of the key-value-store format. *)
Definition no_semicolon (lbl : Label) : Prop :=
  (";"%char ∉ list_ascii_of_string (Source lbl))
  ∧ (";"%char ∉ list_ascii_of_string (Key lbl))
  ∧ (";"%char ∉ list_ascii_of_string (Value lbl)).

Definition example_label : Label :=
  {| Key := "role"; Value := "backend"; Source := "k8s" |}.

(** What the loop writes for a list of parsed labels: the labels with a
    key, each under its key. *)
Definition keyed (lbls : list Label) : list (string * Label) :=
  filter (λ e, e.1 ≠ "") ((λ lbl, (Key lbl, lbl)) <$> lbls).

(** A record of the key-value-store format without its terminator. *)
Definition kv_text (lbl : Label) : string :=
  (Source lbl ++ ":" ++ Key lbl ++ "=" ++ Value lbl)%string.

(** A label set whose serialization can be read back: every label is
    stored under its own key, is printable and holds no semicolon. *)
Definition canonical (l : gmap string Label) : Prop :=
  stored_under_key l
  ∧ ∀ k lbl, l !! k = Some lbl → printable lbl ∧ no_semicolon lbl.

(** The characters with a meaning in the textual label forms. *)
Definition reserved_chars : list ascii := [":"; "="; ";"; "$"]%char.

Definition no_reserved_char (s : string) : Prop :=
  Forall (λ c, c ∉ list_ascii_of_string s) reserved_chars.

(** ** Facts about the string primitives *)

Section string_facts.

Implicit Types (s t : string) (c a : ascii).

Lemma app_String a s t : (String a s ++ t)%string = String a (s ++ t).
Proof. reflexivity. Qed.

Lemma app_empty_l t : ("" ++ t)%string = t.
Proof. reflexivity. Qed.

Lemma app_empty_r s : (s ++ "")%string = s.
Proof. induction s as [|a s IH]; [done|]. by rewrite app_String, IH. Qed.

Lemma app_assoc_string s t u : ((s ++ t) ++ u)%string = (s ++ (t ++ u))%string.
Proof. induction s as [|a s IH]; [done|]. by rewrite !app_String, IH. Qed.

Lemma len_String a s : len (String a s) = len s + 1.
Proof. unfold len. simpl String.length. lia. Qed.

Lemma len_nonneg s : 0 <= len s.
Proof. unfold len. lia. Qed.

Lemma len_empty_iff s : len s = 0 ↔ s = "".
Proof.
  destruct s as [|a s]; [done|]. rewrite len_String.
  pose proof (len_nonneg s). split; [lia|done].
Qed.

Lemma take_length_app s t : take (String.length s) (s ++ t) = s.
Proof. induction s as [|a s IH]; simpl; [done|]. by rewrite IH. Qed.

Lemma drop_length_app s t : drop (String.length s) (s ++ t) = t.
Proof. induction s as [|a s IH]; simpl; done. Qed.

Lemma length_app s t :
  String.length (s ++ t) = (String.length s + String.length t)%nat.
Proof. induction s as [|a s IH]; simpl; auto. Qed.

Lemma take_length s : take (String.length s) s = s.
Proof. induction s as [|a s IH]; simpl; [done|]. by rewrite IH. Qed.

Lemma length_drop n s : String.length (drop n s) = (String.length s - n)%nat.
Proof. revert s. induction n as [|n IH]; intros [|a s]; simpl; auto with lia. Qed.

Lemma slice_Some s lo hi :
  0 <= lo → lo <= hi → hi <= len s →
  slice s lo hi = Some (take (Z.to_nat (hi - lo)) (drop (Z.to_nat lo) s)).
Proof.
  intros Hlo Hhi Hlen. unfold slice.
  destruct (Z.leb_spec 0 lo); [|lia].
  destruct (Z.leb_spec lo hi); [|lia].
  destruct (Z.leb_spec hi (len s)); [done|lia].
Qed.

Lemma slice_from_Some s lo :
  0 <= lo → lo <= len s → slice_from s lo = Some (drop (Z.to_nat lo) s).
Proof.
  intros Hlo Hlen. unfold slice_from. rewrite slice_Some by lia.
  f_equal. rewrite <- (take_length (drop _ s)) at 2. f_equal.
  rewrite length_drop. unfold len. lia.
Qed.

Lemma slice_to_Some s hi :
  0 <= hi → hi <= len s → slice_to s hi = Some (take (Z.to_nat hi) s).
Proof.
  intros Hhi Hlen. unfold slice_to. rewrite slice_Some by lia.
  by rewrite Z.sub_0_r.
Qed.

Lemma slice_to_app s t : slice_to (s ++ t) (len s) = Some s.
Proof.
  rewrite slice_to_Some.
  - unfold len. by rewrite Nat2Z.id, take_length_app.
  - apply len_nonneg.
  - unfold len. rewrite length_app. lia.
Qed.

Lemma slice_from_app s c t :
  slice_from (s ++ String c t) (len s + 1) = Some t.
Proof.
  pose proof (len_nonneg s).
  rewrite slice_from_Some.
  - f_equal. unfold len. replace (Z.to_nat (Z.of_nat (String.length s) + 1))
      with (String.length (s ++ String c "")) by (rewrite length_app; simpl; lia).
    replace (s ++ String c t)%string with ((s ++ String c "") ++ t)%string.
    + apply drop_length_app.
    + clear. induction s as [|a s IH]; [done|]. by rewrite !app_String, IH.
  - lia.
  - unfold len. rewrite length_app. simpl String.length. lia.
Qed.

Lemma index_0_String a s : index (String a s) 0 = Some a.
Proof.
  unfold index. rewrite len_String. pose proof (len_nonneg s).
  destruct (Z.ltb_spec 0 (len s + 1)); [done|lia].
Qed.

Lemma IndexByte_bounds s c : -1 <= IndexByte s c < len s.
Proof.
  induction s as [|a s IH]; simpl; [unfold len; simpl; lia|].
  rewrite len_String. destruct (Ascii.eqb a c); [lia|].
  destruct (Z.ltb_spec (IndexByte s c) 0); lia.
Qed.

Lemma IndexByte_absent s c :
  c ∉ list_ascii_of_string s → IndexByte s c = -1.
Proof.
  induction s as [|a s IH]; simpl; [done|].
  intros [Hne Hs]%not_elem_of_cons.
  destruct (Ascii.eqb_spec a c); [congruence|].
  rewrite IH by done. done.
Qed.

Lemma IndexByte_first s c t :
  c ∉ list_ascii_of_string s → IndexByte (s ++ String c t) c = len s.
Proof.
  induction s as [|a s IH]; simpl.
  - intros _. by rewrite Ascii.eqb_refl.
  - intros [Hne Hs]%not_elem_of_cons.
    destruct (Ascii.eqb_spec a c); [congruence|].
    rewrite IH by done. rewrite len_String. pose proof (len_nonneg s).
    destruct (Z.ltb_spec (len s) 0); [lia|done].
Qed.

Lemma HasPrefix_total s p : ∃ b, HasPrefix s p = Some b.
Proof.
  unfold HasPrefix. destruct (Z.geb_spec (len s) (len p)); [|by eauto].
  rewrite slice_Some by (pose proof (len_nonneg p); lia). simpl. eauto.
Qed.

Lemma HasPrefix_true_len s p : HasPrefix s p = Some true → len p <= len s.
Proof.
  unfold HasPrefix. destruct (Z.geb_spec (len s) (len p)); [lia|done].
Qed.

Lemma TrimPrefix_total s p : ∃ r, TrimPrefix s p = Some r.
Proof.
  unfold TrimPrefix. destruct (HasPrefix_total s p) as [[] Hb]; rewrite Hb; simpl.
  - apply HasPrefix_true_len in Hb. pose proof (len_nonneg p).
    rewrite slice_from_Some by lia. eauto.
  - eauto.
Qed.

Lemma Sprintf_record src k v :
  Sprintf "%s:%s=%s;" [src; k; v] = (src ++ ":" ++ k ++ "=" ++ v ++ ";")%string.
Proof. reflexivity. Qed.

Lemma Sprintf_label src k v :
  Sprintf "%s:%s=%s" [src; k; v] = (src ++ ":" ++ k ++ "=" ++ v)%string.
Proof. cbn [Sprintf]. by rewrite app_empty_r. Qed.

End string_facts.

(** ** The parser never panics *)

Lemma parseSource_total str delim :
  ∃ src next, parseSource str delim = Some (src, next).
Proof.
  unfold parseSource. case_bool_decide as Hstr; [by eauto|].
  assert (∃ a, index str 0 = Some a ∧ 1 <= len str) as (a & -> & Hlen).
  { destruct str as [|a str]; [done|]. exists a. rewrite index_0_String.
    rewrite len_String. pose proof (len_nonneg str). split; [done|lia]. }
  cbn [mbind option_bind].
  case_bool_decide.
  { rewrite slice_from_Some by lia. cbn [mbind option_bind]. eauto. }
  pose proof (IndexByte_bounds str delim) as Hi.
  destruct (Z.ltb_spec (IndexByte str delim) 0).
  - assert (∃ hp, (if negb (bool_decide (delim = "."%char))
                   then HasPrefix str LabelSourceReservedKeyPrefix
                   else Some false) = Some hp) as [hp ->].
    { destruct (negb _); [apply HasPrefix_total|by eauto]. }
    cbn [mbind option_bind].
    destruct hp; [|by eauto].
    destruct (TrimPrefix_total str LabelSourceReservedKeyPrefix) as [r ->].
    cbn [mbind option_bind]. eauto.
  - rewrite slice_to_Some by lia. cbn [mbind option_bind].
    rewrite slice_from_Some by lia. cbn [mbind option_bind]. eauto.
Qed.

Lemma parseLabel_total str delim : ∃ lbl, parseLabel str delim = Some lbl.
Proof.
  unfold parseLabel.
  destruct (parseSource_total str delim) as (src & next & ->). simpl.
  pose proof (IndexByte_bounds next "=") as Hi.
  destruct (Z.ltb_spec (IndexByte next "=") 0); [by eauto|].
  destruct ((IndexByte next "=" =? 0) && bool_decide (src = LabelSourceReserved)).
  - rewrite slice_from_Some by lia. simpl. eauto.
  - rewrite slice_to_Some by lia. simpl.
    rewrite slice_from_Some by lia. simpl. eauto.
Qed.

(** What [parseLabel] does once the source has been split off and the
    remainder holds an equals sign: [before] is the text up to the first
    equals sign of the remainder, [after] the text behind it. *)
Lemma parseLabel_split str delim src before after :
  parseSource str delim = Some (src, before ++ String "=" after)%string →
  "="%char ∉ list_ascii_of_string before →
  parseLabel str delim =
    Some (if bool_decide (src = LabelSourceReserved ∧ before = "")
          then {| Key := after; Value := ""; Source := src |}
          else {| Key := before; Value := after;
                  Source := if bool_decide (src = "") then LabelSourceUnspec else src |}).
Proof.
  intros Hsrc Hfree. unfold parseLabel. rewrite Hsrc. cbn [mbind option_bind].
  cbv zeta. rewrite IndexByte_first by done.
  pose proof (len_nonneg before) as Hlen.
  destruct (Z.ltb_spec (len before) 0); [lia|].
  rewrite slice_to_app, slice_from_app. cbn [mbind option_bind].
  destruct (Z.eqb_spec (len before) 0) as [H0|H0]; cbn [andb].
  - apply len_empty_iff in H0 as ->.
    destruct (decide (src = LabelSourceReserved)) as [->|Hres]; [reflexivity|].
    rewrite (bool_decide_false (src = LabelSourceReserved)) by done.
    rewrite (bool_decide_false (_ ∧ _)) by (intros [? _]; done).
    by case_bool_decide.
  - rewrite (bool_decide_false (_ ∧ _)).
    + by case_bool_decide.
    + intros [_ ->]. by apply H0.
Qed.

(** [parseSource] on a text that carries an explicit source. *)
Lemma parseSource_explicit src next delim :
  src ≠ "" →
  "$"%char ∉ list_ascii_of_string src →
  delim ∉ list_ascii_of_string src →
  parseSource (src ++ String delim next) delim = Some (src, next).
Proof.
  intros Hne Hdollar Hdelim. unfold parseSource.
  assert (∃ a, index (src ++ String delim next) 0 = Some a ∧ a ≠ "$"%char)
    as (a & -> & Ha).
  { destruct src as [|a src]; [done|]. exists a. split.
    - apply index_0_String.
    - intros ->. apply Hdollar. apply list_elem_of_here. }
  rewrite bool_decide_false by (by destruct src).
  cbn [mbind option_bind]. rewrite (bool_decide_false (a = _)) by done.
  rewrite IndexByte_first by done.
  pose proof (len_nonneg src).
  destruct (Z.ltb_spec (len src) 0); [lia|].
  by rewrite slice_to_app, slice_from_app.
Qed.

(** ** Worked examples from the package documentation *)

Example ParseLabel_dollar_host :
  ParseLabel "$host" = Some {| Key := "host"; Value := ""; Source := "reserved" |}.
Proof. vm_compute. reflexivity. Qed.

Example parseSource_doc :
  parseSource "foo:bar==value" ":" = Some ("foo", "bar==value").
Proof. vm_compute. reflexivity. Qed.


Example parseLabel_reserved_prefix :
  parseLabel "reserved.host" ":" = Some {| Key := "host"; Value := ""; Source := "reserved" |}.
Proof. vm_compute. reflexivity. Qed.

(** ** Properties of the parser *)

(** C8: for every input string and delimiter the low-level parser returns
    a label: neither [parseSource] nor [parseLabel] panics on any index or
    slice expression, and there is no error result.  The empty input
    yields a label whose key is the empty string. *)
Theorem parseLabel_always_returns :
  (∀ str delim, ∃ src next, parseSource str delim = Some (src, next))
  ∧ (∀ str delim, ∃ lbl, parseLabel str delim = Some lbl)
  ∧ (∀ delim, ∃ lbl, parseLabel "" delim = Some lbl ∧ Key lbl = "").
Proof.
  split; [exact parseSource_total|]. split; [exact parseLabel_total|].
  intros delim. eexists. split; reflexivity.
Qed.

(** C6: let the remainder left by [parseSource] be [before], an equals
    sign, [after], with no equals sign in [before] (so the sign is the
    first one, at position [len before]).  When the parsed source is
    [reserved] and the sign is at position 0, [after] becomes the key and
    the value stays empty; in every other case [before] is the key and
    [after] the value. *)
Theorem parseLabel_equals_sign_rule str delim src before after :
  parseSource str delim = Some (src, before ++ String "=" after)%string →
  "="%char ∉ list_ascii_of_string before →
  ∃ lbl, parseLabel str delim = Some lbl
    ∧ (src = LabelSourceReserved ∧ len before = 0 →
         Key lbl = after ∧ Value lbl = "")
    ∧ (¬ (src = LabelSourceReserved ∧ len before = 0) →
         Key lbl = before ∧ Value lbl = after).
Proof.
  intros Hsrc Hfree. eexists. split; [by apply parseLabel_split|].
  split.
  - intros [-> ->%len_empty_iff]. by rewrite bool_decide_true.
  - intros Hnot. rewrite bool_decide_false; [done|].
    intros [-> ->]. by apply Hnot.
Qed.

(** The shorthand [$=value]: source [reserved], sign at position 0. *)
Lemma parseLabel_equals_sign_rule_witness :
  ∃ lbl, parseLabel "$=value" ":" = Some lbl
    ∧ (LabelSourceReserved = LabelSourceReserved ∧ len "" = 0 →
         Key lbl = "value" ∧ Value lbl = "")
    ∧ (¬ (LabelSourceReserved = LabelSourceReserved ∧ len "" = 0) →
         Key lbl = "" ∧ Value lbl = "value").
Proof.
  apply (parseLabel_equals_sign_rule "$=value" ":" LabelSourceReserved "" "value").
  - vm_compute. reflexivity.
  - simpl. apply not_elem_of_nil.
Defined.

(** C5: for a source and a key that are not empty and a value, none of
    which holds one of the characters [:], [=], [;], [$], the text
    [source:key=value] is the key-value-store record without its final
    semicolon, and [ParseLabel] maps it back to the three fields. *)
Theorem ParseLabel_roundtrip source key value :
  source ≠ "" → key ≠ "" →
  no_reserved_char source → no_reserved_char key → no_reserved_char value →
  FormatForKVStore {| Key := key; Value := value; Source := source |}
    = (generateLabelString source key value ++ ";")%string
  ∧ ParseLabel (generateLabelString source key value)
    = Some {| Key := key; Value := value; Source := source |}.
Proof.
  intros Hsource Hkey Hs Hk _.
  unfold FormatForKVStore, generateLabelString. cbn [Source Key Value].
  rewrite Sprintf_record, Sprintf_label. split.
  { change (?a ++ ":" ++ ?b)%string with (a ++ (":" ++ b))%string.
    change (key ++ "=" ++ ?b)%string with (key ++ ("=" ++ b))%string.
    by rewrite !app_assoc_string. }
  unfold no_reserved_char, reserved_chars in Hs, Hk.
  rewrite !Forall_cons in Hs. rewrite !Forall_cons in Hk.
  destruct Hs as (Hs_colon & _ & _ & Hs_dollar & _).
  destruct Hk as (_ & Hk_eq & _).
  unfold ParseLabel.
  erewrite parseLabel_split.
  - rewrite bool_decide_false by (intros [_ ?]; done).
    by rewrite bool_decide_false.
  - change (source ++ ":" ++ key ++ "=" ++ value)%string
      with (source ++ String ":" (key ++ String "=" value))%string.
    by apply parseSource_explicit.
  - done.
Qed.

Lemma ParseLabel_roundtrip_witness :
  FormatForKVStore {| Key := "role"; Value := "backend"; Source := "k8s" |}
    = (generateLabelString "k8s" "role" "backend" ++ ";")%string
  ∧ ParseLabel (generateLabelString "k8s" "role" "backend")
    = Some {| Key := "role"; Value := "backend"; Source := "k8s" |}.
Proof.
  apply (ParseLabel_roundtrip "k8s" "role" "backend");
    first [ discriminate
          | unfold no_reserved_char; apply (bool_decide_unpack _); vm_compute; exact I ].
Defined.

(** ** Equality of single labels *)

(** C10: [a.Equals(b)] is true exactly when the keys and the values agree
    and the source of [a] is [any] or equal to the source of [b]; with
    source [any] on the receiver the argument's source is ignored, and the
    method is not symmetric: for [a] with source [any] and [b] with source
    [k8s], same key and value, [a.Equals(b)] holds and [b.Equals(a)] does
    not. *)
Theorem Label_Equals_spec :
  (∀ a b, Label_Equals a b = true ↔
     Key a = Key b ∧ Value a = Value b
     ∧ (Source a = LabelSourceAny ∨ Source a = Source b))
  ∧ (∀ k v s, Label_Equals {| Key := k; Value := v; Source := LabelSourceAny |}
                           {| Key := k; Value := v; Source := s |} = true)
  ∧ (∀ k v, Label_Equals {| Key := k; Value := v; Source := LabelSourceAny |}
                         {| Key := k; Value := v; Source := LabelSourceK8s |} = true
          ∧ Label_Equals {| Key := k; Value := v; Source := LabelSourceK8s |}
                         {| Key := k; Value := v; Source := LabelSourceAny |} = false).
Proof.
  assert (∀ a b, Label_Equals a b = true ↔
     Key a = Key b ∧ Value a = Value b
     ∧ (Source a = LabelSourceAny ∨ Source a = Source b)) as Hspec.
  { intros a b. unfold Label_Equals, IsAnySource.
    destruct (bool_decide_reflect (Source a = LabelSourceAny)),
      (bool_decide_reflect (Source a = Source b)),
      (bool_decide_reflect (Key a = Key b)),
      (bool_decide_reflect (Value a = Value b)); simpl;
      intuition (auto; congruence). }
  split; [done|]. split.
  - intros k v s. apply Hspec. simpl. auto.
  - intros k v. split; [apply Hspec; simpl; auto|].
    apply not_true_iff_false. rewrite Hspec. simpl.
    intros (_ & _ & [?|?]); discriminate.
Qed.

(** ** Equality of label sets *)

Section labels_equals.

Implicit Types (l other : gmap string Label) (entries : list (string * Label)).

Lemma same_fields_eq a b : same_fields a b ↔ a = b.
Proof.
  split; [|by intros ->].
  destruct a, b. intros (? & ? & ?). simpl in *. by subst.
Qed.

(** The loop answers [true] exactly when every visited entry has a twin
    in [other]; the visiting order plays no role. *)
Lemma Labels_Equals_loop_true entries other :
  Labels_Equals_loop entries other = true ↔
  ∀ k lbl1, (k, lbl1) ∈ entries →
    ∃ lbl2, other !! k = Some lbl2 ∧ same_fields lbl1 lbl2.
Proof.
  induction entries as [|[k lbl1] rest IH]; simpl.
  { split; [|done]. intros _ k lbl1 Hin. by apply elem_of_nil in Hin. }
  destruct (other !! k) as [lbl2|] eqn:Hk.
  - destruct (bool_decide_reflect (Source lbl1 = Source lbl2)) as [Hs|Hs];
      destruct (bool_decide_reflect (Key lbl1 = Key lbl2)) as [Hy|Hy];
      destruct (bool_decide_reflect (Value lbl1 = Value lbl2)) as [Hv|Hv];
      simpl.
    1: { rewrite IH. split.
         - intros Hrest k' lbl' [[= -> ->]|Hin]%elem_of_cons; [|by auto].
           exists lbl2. by repeat split.
         - intros Hall k' lbl' Hin. apply Hall. by right. }
    all: split; [done|]; intros Hall;
      destruct (Hall k lbl1) as (lbl2' & Hk' & (? & ? & ?)); [by left|];
      rewrite Hk in Hk'; by simplify_eq.
  - split; [done|]. intros Hall.
    destruct (Hall k lbl1) as (lbl2 & Hk' & _); [by left|].
    by rewrite Hk in Hk'.
Qed.

Lemma Labels_Equals_loop_perm entries entries' other :
  entries ≡ₚ entries' →
  Labels_Equals_loop entries other = Labels_Equals_loop entries' other.
Proof.
  intros Hperm. apply eq_true_iff_eq. rewrite !Labels_Equals_loop_true.
  by setoid_rewrite Hperm.
Qed.

Lemma Labels_Equals_true l other :
  Labels_Equals l other = true ↔
  size l = size other
  ∧ ∀ k lbl1, l !! k = Some lbl1 →
      ∃ lbl2, other !! k = Some lbl2 ∧ same_fields lbl1 lbl2.
Proof.
  unfold Labels_Equals.
  destruct (bool_decide_reflect (size l = size other)) as [Hsz|Hsz]; simpl.
  - rewrite Labels_Equals_loop_true.
    setoid_rewrite elem_of_map_to_list. split; [by auto|]. by intros [_ ?].
  - split; [done|]. by intros [? _].
Qed.

End labels_equals.

(** C7: [Labels.Equals] answers [true] if and only if both sets have the
    same number of entries and for every key of [l] the set [other] has an
    entry under that key with the same key, value and source fields; this
    is the same as the two key-to-label mappings being equal. *)
Theorem Labels_Equals_spec (l other : gmap string Label) :
  (Labels_Equals l other = true ↔
     size l = size other
     ∧ ∀ k lbl1, l !! k = Some lbl1 →
         ∃ lbl2, other !! k = Some lbl2
           ∧ Key lbl1 = Key lbl2 ∧ Value lbl1 = Value lbl2
           ∧ Source lbl1 = Source lbl2)
  ∧ (Labels_Equals l other = true ↔ l = other).
Proof.
  split; [apply Labels_Equals_true|].
  rewrite Labels_Equals_true. split.
  - intros [Hsz Hall]. apply map_subseteq_size_eq; [|lia].
    apply map_subseteq_spec. intros k lbl1 Hk.
    destruct (Hall k lbl1 Hk) as (lbl2 & Hk2 & ->%same_fields_eq). done.
  - intros ->. split; [done|]. intros k lbl1 Hk. exists lbl1.
    split; [done|]. by apply same_fields_eq.
Qed.

(** ** Writes through a map reference *)

Section store.

Implicit Types (σ : gmap positive (gmap string Label)) (m : gmap string Label).
Implicit Types (entries : list (string * Label)) (p q : positive).

Lemma write_all_lookup_other m entries k :
  k ∉ entries.*1 → write_all m entries !! k = m !! k.
Proof.
  revert m. induction entries as [|[k' v'] rest IH]; intros m Hk; [done|].
  rewrite fmap_cons in Hk. apply not_elem_of_cons in Hk as [Hne Hk].
  unfold write_all. simpl. fold (write_all (<[k' := v']> m) rest).
  rewrite IH by done. by rewrite lookup_insert_ne.
Qed.

Lemma write_all_lookup_written m entries k v :
  NoDup entries.*1 → (k, v) ∈ entries → write_all m entries !! k = Some v.
Proof.
  revert m. induction entries as [|[k' v'] rest IH]; intros m Hdup Hin.
  { by apply elem_of_nil in Hin. }
  rewrite fmap_cons in Hdup. apply NoDup_cons in Hdup as [Hfresh Hdup].
  unfold write_all. simpl. fold (write_all (<[k' := v']> m) rest).
  apply elem_of_cons in Hin as [[= -> ->]|Hin].
  - rewrite write_all_lookup_other by done. apply lookup_insert_eq.
  - by apply IH.
Qed.

Lemma write_all_empty_lookup entries k v :
  NoDup entries.*1 → write_all ∅ entries !! k = Some v ↔ (k, v) ∈ entries.
Proof.
  intros Hdup. split; [|by apply write_all_lookup_written].
  intros Hk. destruct (decide (k ∈ entries.*1)) as [Hin|Hout].
  - apply list_elem_of_fmap in Hin as ([k' v'] & -> & Hin). simpl in *.
    rewrite (write_all_lookup_written _ _ _ v') in Hk by done.
    by simplify_eq.
  - rewrite write_all_lookup_other in Hk by done.
    by rewrite lookup_empty in Hk.
Qed.

Lemma map_assign_ref σ p m k v :
  σ !! p = Some m → map_assign σ (LRef p) k v = Some (<[p := <[k := v]> m]> σ).
Proof. intros Hp. unfold map_assign. by rewrite Hp. Qed.

(** A write to a nil map panics. *)
Lemma map_assign_nil σ k v : map_assign σ LNil k v = None.
Proof. done. Qed.

Lemma MergeLabels_loop_ref σ p m entries :
  σ !! p = Some m →
  MergeLabels_loop σ (LRef p) entries = Some (<[p := write_all m entries]> σ).
Proof.
  revert σ m. induction entries as [|[k v] rest IH]; intros σ m Hp;
    cbn [MergeLabels_loop].
  { by rewrite insert_id. }
  rewrite (map_assign_ref _ _ m) by done. cbn [mbind option_bind].
  rewrite (IH _ (<[k := v]> m)) by apply lookup_insert_eq.
  by rewrite insert_insert_eq.
Qed.

Lemma FindReserved_loop_ref σ p m entries :
  σ !! p = Some m →
  FindReserved_loop σ (LRef p) entries
    = Some (<[p := write_all m (filter is_reserved entries)]> σ).
Proof.
  revert σ m. induction entries as [|[k lbl] rest IH]; intros σ m Hp;
    cbn [FindReserved_loop].
  { by rewrite insert_id. }
  destruct (bool_decide_reflect (Source lbl = LabelSourceReserved)) as [Hres|Hres].
  - rewrite (map_assign_ref _ _ m) by done. cbn [mbind option_bind].
    rewrite (IH _ (<[k := lbl]> m)) by apply lookup_insert_eq.
    rewrite insert_insert_eq. by rewrite filter_cons_True.
  - rewrite (IH _ m) by done. by rewrite filter_cons_False.
Qed.

Lemma NoDup_filter_keys (P : string * Label → Prop) `{∀ e, Decision (P e)} m :
  NoDup (filter P (map_to_list m)).*1.
Proof.
  eapply sublist_NoDup; [apply (NoDup_fst_map_to_list m)|].
  apply fmap_sublist, sublist_filter.
Qed.

(** Merging into a nil destination panics as soon as there is something
    to write, and does nothing otherwise. *)
Lemma MergeLabels_nil_destination σ from :
  MergeLabels σ LNil from = (if decide (contents σ from = ∅) then Some σ else None).
Proof.
  unfold MergeLabels. case_decide as Hm.
  - by rewrite Hm, map_to_list_empty.
  - destruct (map_to_list (contents σ from)) as [|[k v] rest] eqn:Hl; [|done].
    by apply map_to_list_empty_iff in Hl.
Qed.

End store.

(** ** Merge *)

(** C3: let the destination [to] be a map object at [p] holding [mto].
    [to.MergeLabels(from)] returns normally; afterwards every key of
    [from] maps in [to] to the label [from] had for it, every other key of
    [to] keeps its label (and no key appears from nowhere), and the
    change is made in the object [p] itself: the same reference reads the
    merged set, no object is created and no other object changes. *)
Theorem MergeLabels_spec (σ : gmap positive (gmap string Label)) (p : positive)
    (from : Labels) (mto : gmap string Label) :
  σ !! p = Some mto →
  ∃ σ', MergeLabels σ (LRef p) from = Some σ'
    ∧ (∀ k v, contents σ from !! k = Some v →
         contents σ' (LRef p) !! k = Some v)
    ∧ (∀ k, contents σ from !! k = None →
         contents σ' (LRef p) !! k = mto !! k)
    ∧ (∀ q, q ≠ p → σ' !! q = σ !! q)
    ∧ dom σ' = dom σ.
Proof.
  intros Hp. unfold MergeLabels.
  rewrite (MergeLabels_loop_ref _ _ mto) by done.
  eexists. split; [done|].
  cbn [contents]. rewrite lookup_insert_eq. cbn [from_option id].
  repeat split.
  - intros k v Hk. apply write_all_lookup_written.
    + apply NoDup_fst_map_to_list.
    + by apply elem_of_map_to_list.
  - intros k Hk. apply write_all_lookup_other.
    intros ([k' v] & -> & Hin%elem_of_map_to_list)%list_elem_of_fmap.
    simpl in Hk. by rewrite Hk in Hin.
  - intros q Hq. by rewrite lookup_insert_ne.
  - apply dom_insert_lookup_L. by eexists.
Qed.

(** The merge of the documentation: source [{x: (x,2,k8s)}] into
    destination [{x: (x,1,container), y: (y,3,k8s)}]. *)
Lemma MergeLabels_spec_witness :
  ∃ σ', MergeLabels merge_store (LRef 1) (LRef 2) = Some σ'
    ∧ (∀ k v, contents merge_store (LRef 2) !! k = Some v →
         contents σ' (LRef 1) !! k = Some v)
    ∧ (∀ k, contents merge_store (LRef 2) !! k = None →
         contents σ' (LRef 1) !! k = merge_destination !! k)
    ∧ (∀ q, q ≠ 1%positive → σ' !! q = merge_store !! q)
    ∧ dom σ' = dom merge_store.
Proof.
  apply (MergeLabels_spec merge_store 1 (LRef 2) merge_destination).
  reflexivity.
Defined.

Example MergeLabels_documented :
  (λ σ', contents σ' (LRef 1)) <$> MergeLabels merge_store (LRef 1) (LRef 2)
    = Some {[ "x" := mkLabel "x" "2" "k8s"; "y" := mkLabel "y" "3" "k8s" ]}.
Proof. vm_compute. reflexivity. Qed.

(** Merging a set into itself leaves it as it is. *)
Example MergeLabels_self :
  MergeLabels merge_store (LRef 1) (LRef 1) = Some merge_store.
Proof. vm_compute. reflexivity. Qed.

(** ** Reserved subset *)

(** C9: [FindReserved] returns normally and changes no object that
    existed before the call, so the input set is not modified.  When some
    entry has the source [reserved], the result is a reference to a new
    object holding exactly the entries of the input whose source is
    [reserved]; when no entry has it, the result is [nil], which is not a
    reference to any (empty) map object. *)
Theorem FindReserved_spec (σ : gmap positive (gmap string Label)) (l : Labels) :
  ∃ σ' r, FindReserved σ l = Some (σ', r)
    ∧ (∀ q, q ∈ dom σ → σ' !! q = σ !! q)
    ∧ ((∃ k lbl, contents σ l !! k = Some lbl ∧ Source lbl = LabelSourceReserved) →
         ∃ p, r = LRef p ∧ (p ∉ dom σ)
           ∧ ∀ k lbl, contents σ' r !! k = Some lbl ↔
               contents σ l !! k = Some lbl ∧ Source lbl = LabelSourceReserved)
    ∧ ((∀ k lbl, contents σ l !! k = Some lbl → Source lbl ≠ LabelSourceReserved) →
         r = LNil ∧ ∀ p, r ≠ LRef p).
Proof.
  unfold FindReserved, alloc.
  pose proof (is_fresh (dom σ)) as Hfresh.
  set (p := fresh (dom σ)) in *.
  set (entries := map_to_list (contents σ l)).
  rewrite (FindReserved_loop_ref _ _ ∅) by apply lookup_insert_eq.
  cbn [mbind option_bind contents]. rewrite insert_insert_eq, lookup_insert_eq.
  cbn [from_option id].
  set (R := write_all ∅ (filter is_reserved entries)).
  assert (∀ k lbl, R !! k = Some lbl ↔
            contents σ l !! k = Some lbl ∧ Source lbl = LabelSourceReserved) as HR.
  { intros k lbl. unfold R.
    rewrite write_all_empty_lookup by apply NoDup_filter_keys.
    rewrite list_elem_of_filter. unfold entries.
    rewrite elem_of_map_to_list. unfold is_reserved. simpl. tauto. }
  assert (∀ q, q ∈ dom σ → <[p := R]> σ !! q = σ !! q) as Hold.
  { intros q Hq. apply lookup_insert_ne. intros ->. by apply Hfresh. }
  destruct (bool_decide_reflect (0 < size R)%nat) as [Hsz|Hsz].
  - eexists _, _. split; [done|]. split; [done|]. split.
    + intros _. exists p. split; [done|]. split; [done|].
      cbn [contents]. rewrite lookup_insert_eq. cbn [from_option id]. done.
    + intros Hnone. exfalso.
      assert (size R ≠ 0%nat) as Hne by lia.
      apply map_size_ne_0_lookup in Hne as [k [lbl Hk]].
      apply HR in Hk as [Hk Hres]. by apply (Hnone k lbl).
  - eexists _, _. split; [done|]. split; [done|]. split.
    + intros (k & lbl & Hk & Hres). exfalso. apply Hsz.
      assert (R !! k = Some lbl) as HRk by (by apply HR).
      assert (size R ≠ 0%nat); [|lia].
      apply map_size_ne_0_lookup. exists k. by eexists.
    + intros _. split; [done|]. by intros q.
Qed.

Example FindReserved_some :
  let σ : gmap positive (gmap string Label) :=
    {[ 1%positive := {[ "host" := mkLabel "host" "" "reserved";
                        "app" := mkLabel "app" "web" "k8s" ]} ]} in
  (λ '(σ', r), (r, contents σ' r, σ' !! 1%positive)) <$> FindReserved σ (LRef 1)
    = Some (LRef 2, {[ "host" := mkLabel "host" "" "reserved" ]}, σ !! 1%positive).
Proof. vm_compute. reflexivity. Qed.

Example FindReserved_none :
  let σ : gmap positive (gmap string Label) :=
    {[ 1%positive := {[ "app" := mkLabel "app" "web" "k8s" ]} ]} in
  snd <$> FindReserved σ (LRef 1) = Some LNil.
Proof. vm_compute. reflexivity. Qed.

(** ** The order of [sort.Strings] *)

Section key_order.

Implicit Types (j k : string) (keys : list string).

Lemma to_N_byte_of_ascii (a : ascii) : Byte.to_N (byte_of_ascii a) = N_of_ascii a.
Proof. destruct a as [[] [] [] [] [] [] [] []]; reflexivity. Qed.

Lemma list_byte_of_string_String (a : ascii) (s : string) :
  list_byte_of_string (String a s) = byte_of_ascii a :: list_byte_of_string s.
Proof. reflexivity. Qed.

Lemma list_byte_of_string_app (s t : string) :
  list_byte_of_string (s ++ t)
    = (list_byte_of_string s ++ list_byte_of_string t)%list.
Proof.
  induction s as [|a s IH]; [done|].
  rewrite app_String, !list_byte_of_string_String, IH. done.
Qed.

(** [bytes_lt] on the bytes of two strings is the strict part of the
    library comparison of strings. *)
Lemma bytes_lt_compare j k :
  bytes_lt (list_byte_of_string j) (list_byte_of_string k) = true
  ↔ (j ?= k)%string = Lt.
Proof.
  revert k. induction j as [|a j IH]; intros [|b k];
    rewrite ?list_byte_of_string_String; try done.
  cbn [bytes_lt String.compare]. rewrite !to_N_byte_of_ascii.
  unfold Ascii.compare.
  destruct (N.compare_spec (N_of_ascii a) (N_of_ascii b)) as [Heq|Hlt|Hgt].
  - rewrite Heq, N.ltb_irrefl, N.eqb_refl. simpl. apply IH.
  - apply N.ltb_lt in Hlt as ->. done.
  - assert ((N_of_ascii a <? N_of_ascii b)%N = false) as ->
      by (apply N.ltb_ge; lia).
    assert ((N_of_ascii a =? N_of_ascii b)%N = false) as ->
      by (apply N.eqb_neq; lia).
    done.
Qed.

Lemma compare_refl_string k : (k ?= k)%string = Eq.
Proof.
  pose proof (String.compare_antisym k k) as H.
  destruct (k ?= k)%string; done.
Qed.

Lemma key_lt_spec j k : key_lt j k ↔ String.le j k ∧ j ≠ k.
Proof.
  unfold key_lt, String.le, String.leb. rewrite bytes_lt_compare.
  destruct (j ?= k)%string eqn:Hc; simpl.
  - apply String.compare_eq_iff in Hc as ->. split; [done|]. by intros [_ ?].
  - split; [|done]. intros _. split; [done|].
    intros ->. by rewrite compare_refl_string in Hc.
  - split; [done|]. by intros [[] _].
Qed.

Lemma key_lt_le j k : key_lt j k → String.le j k.
Proof. by intros [? _]%key_lt_spec. Qed.

Lemma Sorted_key_lt keys :
  Sorted String.le keys → NoDup keys → Sorted key_lt keys.
Proof.
  induction 1 as [|k keys Hsorted IH Hhd]; intros Hdup; [constructor|].
  apply NoDup_cons in Hdup as [Hk Hdup]. constructor; [by apply IH|].
  destruct Hhd as [|j keys Hle]; constructor.
  apply key_lt_spec. split; [done|]. intros ->. apply Hk. by left.
Qed.

Lemma sort_Strings_perm keys : sort_Strings keys ≡ₚ keys.
Proof. apply merge_sort_Permutation. Qed.

Lemma sort_Strings_sorted keys : StronglySorted String.le (sort_Strings keys).
Proof. apply StronglySorted_merge_sort; apply _. Qed.

Lemma elem_of_sort_Strings keys k : k ∈ sort_Strings keys ↔ k ∈ keys.
Proof. by rewrite sort_Strings_perm. Qed.

(** The result of sorting depends on the elements only. *)
Lemma sort_Strings_unique keys keys' :
  StronglySorted String.le keys' → keys' ≡ₚ keys → sort_Strings keys = keys'.
Proof.
  intros Hsorted Hperm.
  apply (StronglySorted_unique String.le); [apply sort_Strings_sorted|done|].
  by rewrite sort_Strings_perm.
Qed.

Lemma sort_Strings_order keys keys' :
  keys ≡ₚ keys' → sort_Strings keys = sort_Strings keys'.
Proof.
  intros Hperm. apply sort_Strings_unique; [apply sort_Strings_sorted|].
  by rewrite sort_Strings_perm.
Qed.

End key_order.

(** ** Canonical serialization *)

Section sorted_list.

Implicit Types (l A B : gmap string Label) (keys order : list string).

Lemma append_loop (acc order : list string) :
  foldl (λ (keys : list string) k, (keys ++ [k])%list) acc order
    = (acc ++ order)%list.
Proof.
  revert acc. induction order as [|k order IH]; intros acc; simpl.
  - by rewrite app_nil_r.
  - rewrite IH. by rewrite <- app_assoc.
Qed.

Lemma concat_loop (f : string → string) (acc : string) keys :
  foldl (λ result k, (result ++ f k)%string) acc keys
    = (acc ++ join_records (f <$> keys))%string.
Proof.
  revert acc. induction keys as [|k keys IH]; intros acc; simpl.
  - by rewrite app_empty_r.
  - rewrite IH. by rewrite app_assoc_string.
Qed.

Lemma join_records_app (rs1 rs2 : list string) :
  join_records (rs1 ++ rs2)
    = (join_records rs1 ++ join_records rs2)%string.
Proof.
  induction rs1 as [|r rs1 IH]; simpl; [done|].
  rewrite IH. by rewrite app_assoc_string.
Qed.

Lemma FormatForKVStore_record lbl : FormatForKVStore lbl = kv_record lbl.
Proof. apply Sprintf_record. Qed.

Lemma SortedList_from_eq order l :
  SortedList_from order l
    = list_byte_of_string
        (join_records ((λ k, kv_record (l !!! k)) <$> sort_Strings order)).
Proof.
  unfold SortedList_from. rewrite append_loop, app_nil_l.
  rewrite (concat_loop (λ k, FormatForKVStore (l !!! k))), app_empty_l.
  reflexivity.
Qed.

(** The visiting order of the first loop does not show in the result. *)
Lemma SortedList_from_order order l :
  order ≡ₚ (map_to_list l).*1 → SortedList_from order l = SortedList l.
Proof.
  intros Hperm. unfold SortedList. rewrite !SortedList_from_eq.
  by rewrite (sort_Strings_order _ _ Hperm).
Qed.

Lemma elem_of_keys l k : k ∈ (map_to_list l).*1 ↔ is_Some (l !! k).
Proof.
  rewrite list_elem_of_fmap. split.
  - intros ([k' lbl] & -> & Hin%elem_of_map_to_list). by eexists.
  - intros [lbl Hk]. exists (k, lbl). split; [done|].
    by apply elem_of_map_to_list.
Qed.

End sorted_list.

(** C1: [SortedList] returns the bytes of the records [source:key=value;]
    of the labels stored under the keys of the set, taken in strictly
    increasing byte-wise lexicographic order of the keys and written one
    after the other with nothing in between ([key] and the other two
    fields are those of the stored label).  A label with an empty value
    gives the record [source:key=;].  The result does not depend on the
    order in which the map is visited. *)
Theorem SortedList_spec (l : gmap string Label) :
  (∃ (keys : list string) (lbls : list Label),
     (∀ k, k ∈ keys ↔ is_Some (l !! k))
     ∧ Sorted key_lt keys
     ∧ Forall2 (λ k lbl, l !! k = Some lbl) keys lbls
     ∧ SortedList l = list_byte_of_string (join_records (kv_record <$> lbls)))
  ∧ (∀ lbl, Value lbl = "" →
       kv_record lbl = (Source lbl ++ ":" ++ Key lbl ++ "=;")%string)
  ∧ (∀ order, order ≡ₚ (map_to_list l).*1 → SortedList_from order l = SortedList l).
Proof.
  split; [|split].
  - set (keys := sort_Strings (map_to_list l).*1).
    assert (∀ k, k ∈ keys ↔ is_Some (l !! k)) as Hkeys.
    { intros k. unfold keys. by rewrite elem_of_sort_Strings, elem_of_keys. }
    exists keys, ((λ k, l !!! k) <$> keys). split; [done|]. split; [|split].
    + apply Sorted_key_lt.
      * apply StronglySorted_Sorted, sort_Strings_sorted.
      * unfold keys. rewrite sort_Strings_perm. apply NoDup_fst_map_to_list.
    + apply Forall2_fmap_r, Forall_Forall2_diag, Forall_forall.
      intros k Hk%Hkeys. by apply lookup_lookup_total.
    + unfold SortedList. rewrite SortedList_from_eq.
      by rewrite <- list_fmap_compose.
  - intros lbl Hv. unfold kv_record. by rewrite Hv.
  - intros order. apply SortedList_from_order.
Qed.

(** ** Prefixes *)

Example SortedList_a : SortedList labels_a = list_byte_of_string "k8s:a=1;".
Proof. vm_compute. reflexivity. Qed.

Example SortedList_b : SortedList labels_b = list_byte_of_string "k8s:b=2;".
Proof. vm_compute. reflexivity. Qed.

Example SortedList_ab :
  SortedList labels_ab = list_byte_of_string "k8s:a=1;k8s:b=2;".
Proof. vm_compute. reflexivity. Qed.

(** C2, as stated, fails: the key set of [{b}] is a subset of the key set
    of [{a, b}] and the shared entry is identical, but [k8s:b=2;] is not a
    prefix of [k8s:a=1;k8s:b=2;]. *)
Lemma SortedList_prefix_counterexample :
  dom labels_b ⊆ dom labels_ab
  ∧ (∀ k x y, labels_b !! k = Some x → labels_ab !! k = Some y → x = y)
  ∧ ¬ (SortedList labels_b `prefix_of` SortedList labels_ab).
Proof.
  split; [|split].
  - apply (bool_decide_unpack _). vm_compute. exact I.
  - unfold labels_b. intros k x y [<- <-]%lookup_singleton_Some Hy.
    vm_compute in Hy. by simplify_eq.
  - rewrite SortedList_b, SortedList_ab. intros [rest Hrest].
    vm_compute in Hrest. discriminate Hrest.
Qed.

(** C2, amended: when the key set of [A] is a subset of the key set of
    [B], every shared entry is identical, and every key of [B] that [A]
    lacks is greater, in byte-wise lexicographic order, than every key of
    [A], then [SortedList A] is a prefix, byte for byte, of
    [SortedList B]. *)
Theorem SortedList_prefix (A B : gmap string Label) :
  dom A ⊆ dom B →
  (∀ k x y, A !! k = Some x → B !! k = Some y → x = y) →
  (∀ j k, j ∈ dom A → k ∈ dom B → k ∉ dom A → key_lt j k) →
  SortedList A `prefix_of` SortedList B.
Proof.
  intros Hdom Hshared Hgreater.
  set (kA := (map_to_list A).*1). set (kB := (map_to_list B).*1).
  set (rest := sort_Strings (filter (λ k, k ∉ dom A) kB)).
  assert (∀ k, k ∈ kA ↔ k ∈ dom A) as HkA.
  { intros k. unfold kA. by rewrite elem_of_keys, elem_of_dom. }
  assert (∀ k, k ∈ kB ↔ k ∈ dom B) as HkB.
  { intros k. unfold kB. by rewrite elem_of_keys, elem_of_dom. }
  assert (∀ k, k ∈ rest ↔ (k ∉ dom A) ∧ k ∈ dom B) as Hrest.
  { intros k. unfold rest.
    by rewrite elem_of_sort_Strings, list_elem_of_filter, HkB. }
  assert (sort_Strings kB = (sort_Strings kA ++ rest)%list) as HsB.
  { apply sort_Strings_unique.
    - apply StronglySorted_app. split; [|split].
      + intros j k Hj%elem_of_sort_Strings%HkA [Hk HkB']%Hrest.
        by apply key_lt_le, Hgreater.
      + apply sort_Strings_sorted.
      + apply sort_Strings_sorted.
    - apply NoDup_Permutation.
      + apply NoDup_app. split; [|split].
        * unfold kA. rewrite sort_Strings_perm. apply NoDup_fst_map_to_list.
        * intros k Hk%elem_of_sort_Strings%HkA [Hk' _]%Hrest. done.
        * unfold rest. rewrite sort_Strings_perm.
          apply NoDup_filter, NoDup_fst_map_to_list.
      + apply NoDup_fst_map_to_list.
      + intros k. rewrite elem_of_app, elem_of_sort_Strings, HkA, Hrest.
        fold kB. rewrite HkB. split.
        * intros [Hk|[_ Hk]]; [by apply Hdom|done].
        * intros Hk. destruct (decide (k ∈ dom A)); [by left|by right]. }
  unfold SortedList. fold kA kB. rewrite !SortedList_from_eq, HsB.
  rewrite fmap_app, join_records_app, list_byte_of_string_app.
  assert ((λ k, kv_record (B !!! k)) <$> sort_Strings kA
          = (λ k, kv_record (A !!! k)) <$> sort_Strings kA) as ->.
  { apply Forall_fmap_ext, Forall_forall.
    intros k Hk%elem_of_sort_Strings%HkA.
    pose proof Hk as [x Hx]%elem_of_dom.
    apply Hdom in Hk as [y Hy]%elem_of_dom.
    rewrite (lookup_total_correct _ _ _ Hx), (lookup_total_correct _ _ _ Hy).
    by rewrite (Hshared k x y). }
  by eexists.
Qed.

(** The pair of the documentation: [{a}] against [{a, b}]. *)
Lemma SortedList_prefix_witness :
  SortedList labels_a `prefix_of` SortedList labels_ab.
Proof.
  apply (SortedList_prefix labels_a labels_ab).
  - apply (bool_decide_unpack _). vm_compute. exact I.
  - unfold labels_a. intros k x y [<- <-]%lookup_singleton_Some Hy.
    vm_compute in Hy. by simplify_eq.
  - intros j k Hj Hk Hnk. unfold labels_a in Hj, Hnk.
    rewrite dom_singleton_L in Hj, Hnk. apply elem_of_singleton in Hj as ->.
    unfold labels_ab in Hk. rewrite dom_insert_L, dom_singleton_L in Hk.
    apply elem_of_union in Hk as [Hk|Hk]; [done|].
    apply elem_of_singleton in Hk as ->. reflexivity.
Defined.

(** ** More facts about strings *)

Section more_string_facts.

Implicit Types (s t p : string) (c a : ascii).

Lemma list_ascii_of_string_app s t :
  list_ascii_of_string (s ++ t)
    = (list_ascii_of_string s ++ list_ascii_of_string t)%list.
Proof. induction s as [|a s IH]; simpl; [done|]. by rewrite IH. Qed.

Lemma app_inv_head_string s t1 t2 : (s ++ t1)%string = (s ++ t2)%string → t1 = t2.
Proof. induction s as [|a s IH]; simpl; [done|]. intros [= ?]. auto. Qed.

(** Splitting at the first occurrence of a byte is unique. *)
Lemma split_first_unique c s1 t1 s2 t2 :
  c ∉ list_ascii_of_string s1 → c ∉ list_ascii_of_string s2 →
  (s1 ++ String c t1)%string = (s2 ++ String c t2)%string →
  s1 = s2 ∧ t1 = t2.
Proof.
  revert s2. induction s1 as [|a s1 IH]; intros [|b s2] H1 H2; simpl.
  - by intros [= ->].
  - intros [= <- _]. exfalso. apply H2. simpl. by left.
  - intros [= -> _]. exfalso. apply H1. simpl. by left.
  - intros [= -> Heq]. simpl in H1, H2.
    apply not_elem_of_cons in H1 as [_ H1]. apply not_elem_of_cons in H2 as [_ H2].
    destruct (IH s2 H1 H2 Heq) as [-> ->]. done.
Qed.

End more_string_facts.

(** ** Textual forms of a label *)

Section label_text.

Implicit Types (lbl : Label) (str src next : string).

(** What [parseLabel] does when the remainder holds no equals sign. *)
Lemma parseLabel_no_equals str delim src next :
  parseSource str delim = Some (src, next) →
  "="%char ∉ list_ascii_of_string next →
  parseLabel str delim =
    Some {| Key := next; Value := "";
            Source := if bool_decide (src = "") then LabelSourceUnspec else src |}.
Proof.
  intros Hsrc Hfree. unfold parseLabel. rewrite Hsrc. cbn [mbind option_bind].
  cbv zeta. rewrite IndexByte_absent by done.
  change (-1 <? 0) with true. cbv iota. by case_bool_decide.
Qed.

Lemma ParseLabel_kv_text lbl :
  printable lbl →
  ParseLabel (Source lbl ++ ":" ++ Key lbl ++ "=" ++ Value lbl) = Some lbl.
Proof.
  intros (Hsrc & Hcolon & Hdollar & Hkey & Heq). unfold ParseLabel.
  rewrite (parseLabel_split _ _ (Source lbl) (Key lbl) (Value lbl)).
  - rewrite bool_decide_false by (intros [_ ?]; done).
    rewrite bool_decide_false by done. by destruct lbl.
  - change (Source lbl ++ ":" ++ Key lbl ++ "=" ++ Value lbl)%string
      with (Source lbl ++ String ":" (Key lbl ++ String "=" (Value lbl)))%string.
    by apply parseSource_explicit.
  - done.
Qed.

Lemma ParseLabel_source_key lbl :
  printable lbl → Value lbl = "" →
  ParseLabel (Source lbl ++ ":" ++ Key lbl) = Some lbl.
Proof.
  intros (Hsrc & Hcolon & Hdollar & Hkey & Heq) Hvalue. unfold ParseLabel.
  rewrite (parseLabel_no_equals _ _ (Source lbl) (Key lbl)).
  - rewrite bool_decide_false by done. destruct lbl; simpl in *. by subst.
  - change (Source lbl ++ ":" ++ Key lbl)%string
      with (Source lbl ++ String ":" (Key lbl))%string.
    by apply parseSource_explicit.
  - done.
Qed.

Lemma ParseLabel_Label_String_aux lbl :
  printable lbl → ParseLabel (Label_String lbl) = Some lbl.
Proof.
  intros Hp. unfold Label_String.
  destruct (Z.eqb_spec (len (Value lbl)) 0) as [H0|H0]; cbn [negb].
  - apply len_empty_iff in H0. by apply ParseLabel_source_key.
  - by apply ParseLabel_kv_text.
Qed.

End label_text.

(** X1: for every label with a non-empty source free of colon and dollar
    sign and a non-empty key free of equals sign, [ParseLabel] applied to
    the text of [String()] gives the label back, with or without value. *)
Theorem ParseLabel_Label_String (lbl : Label) :
  printable lbl → ParseLabel (Label_String lbl) = Some lbl.
Proof.
  intros Hp. unfold Label_String.
  destruct (Z.eqb_spec (len (Value lbl)) 0) as [H0|H0]; cbn [negb].
  - apply len_empty_iff in H0. by apply ParseLabel_source_key.
  - by apply ParseLabel_kv_text.
Qed.

Lemma ParseLabel_Label_String_witness :
  ParseLabel (Label_String {| Key := "host"; Value := ""; Source := "reserved" |})
    = Some {| Key := "host"; Value := ""; Source := "reserved" |}.
Proof.
  apply (ParseLabel_Label_String {| Key := "host"; Value := ""; Source := "reserved" |}).
  unfold printable. cbn [Source Key].
  repeat split; first [ discriminate | apply (bool_decide_unpack _); vm_compute; exact I ].
Defined.

(** X2: the three spellings of a reserved label, [$rest], [reserved:rest]
    and, when [rest] holds no colon, [reserved.rest], parse to the same
    label. *)
Theorem ParseLabel_reserved_spellings (rest : string) :
  ":"%char ∉ list_ascii_of_string rest →
  ParseLabel ("reserved:" ++ rest) = ParseLabel ("$" ++ rest)
  ∧ ParseLabel ("reserved." ++ rest) = ParseLabel ("$" ++ rest).
Proof.
  intros Hrest. unfold ParseLabel, parseLabel.
  assert (parseSource ("$" ++ rest) ":" = Some (LabelSourceReserved, rest)) as ->.
  { unfold parseSource. rewrite bool_decide_false by done.
    change ("$" ++ rest)%string with (String "$" rest).
    rewrite index_0_String. cbn [mbind option_bind].
    rewrite bool_decide_true by done.
    assert (slice_from (String "$" rest) 1 = Some rest) as ->
      by exact (slice_from_app "" "$" rest).
    done. }
  assert (parseSource ("reserved:" ++ rest) ":" = Some (LabelSourceReserved, rest)) as ->.
  { apply (parseSource_explicit "reserved" rest ":"); [done|..];
      apply (bool_decide_unpack _); vm_compute; exact I. }
  split; [done|].
  assert (parseSource ("reserved." ++ rest) ":" = Some (LabelSourceReserved, rest)) as ->;
    [|done].
  unfold parseSource. rewrite bool_decide_false by done.
  change ("reserved." ++ rest)%string with (String "r" ("eserved." ++ rest)).
  rewrite index_0_String. cbn [mbind option_bind].
  rewrite bool_decide_false by done.
  change (String "r" ("eserved." ++ rest)) with ("reserved." ++ rest)%string.
  rewrite IndexByte_absent.
  2:{ rewrite list_ascii_of_string_app. apply not_elem_of_app. split; [|done].
      apply (bool_decide_unpack _). vm_compute. exact I. }
  change (-1 <? 0) with true. cbv iota. cbn [negb].
  rewrite bool_decide_false by done. cbn [negb].
  assert (HasPrefix ("reserved." ++ rest) LabelSourceReservedKeyPrefix = Some true) as Hhp.
  { unfold HasPrefix. pose proof (len_nonneg rest).
    assert (len ("reserved." ++ rest) = 9 + len rest) as Hlen.
    { unfold len. rewrite length_app. simpl String.length. lia. }
    rewrite Hlen. change (len LabelSourceReservedKeyPrefix) with 9.
    destruct (Z.geb_spec (9 + len rest) 9); [|lia].
    change 9 with (len "reserved.") at 1.
    change (slice ?s 0 ?n) with (slice_to s n). rewrite slice_to_app.
    cbn [mbind option_bind]. by rewrite bool_decide_true. }
  rewrite Hhp. cbn [mbind option_bind].
  unfold TrimPrefix. rewrite Hhp. cbn [mbind option_bind].
  change (len LabelSourceReservedKeyPrefix) with (len "reserved" + 1).
  change ("reserved." ++ rest)%string with ("reserved" ++ String "." rest)%string.
  rewrite slice_from_app. done.
Qed.

Lemma ParseLabel_reserved_spellings_witness :
  ParseLabel ("reserved:" ++ "host") = ParseLabel ("$" ++ "host")
  ∧ ParseLabel ("reserved." ++ "host") = ParseLabel ("$" ++ "host").
Proof.
  apply (ParseLabel_reserved_spellings "host").
  apply (bool_decide_unpack _). vm_compute. exact I.
Defined.

(** ** Sources the parsers produce *)

Lemma parseLabel_Source str delim src next :
  parseSource str delim = Some (src, next) →
  ∃ lbl, parseLabel str delim = Some lbl
    ∧ Source lbl = (if bool_decide (src = "") then LabelSourceUnspec else src).
Proof.
  intros Hsrc. unfold parseLabel. rewrite Hsrc. cbn [mbind option_bind]. cbv zeta.
  assert ((if negb (bool_decide (src = "")) then src else LabelSourceUnspec)
          = (if bool_decide (src = "") then LabelSourceUnspec else src)) as ->
    by (by case_bool_decide).
  pose proof (IndexByte_bounds next "=") as Hi.
  destruct (Z.ltb_spec (IndexByte next "=") 0); [by eauto|].
  destruct ((IndexByte next "=" =? 0) && bool_decide (src = LabelSourceReserved)).
  - rewrite slice_from_Some by lia. cbn [mbind option_bind]. eauto.
  - rewrite slice_to_Some by lia. cbn [mbind option_bind].
    rewrite slice_from_Some by lia. cbn [mbind option_bind]. eauto.
Qed.

(** X3: on every input the generic parser returns a label whose source is
    not empty, and the select-label parser returns the same key and value
    with a source that is neither empty nor [unspec]. *)
Theorem parsers_source_never_empty (str : string) (delim : ascii) :
  ∃ lbl sel, parseLabel str delim = Some lbl
    ∧ parseSelectLabel str delim = Some sel
    ∧ Source lbl ≠ ""
    ∧ Source sel ≠ "" ∧ Source sel ≠ LabelSourceUnspec
    ∧ Key sel = Key lbl ∧ Value sel = Value lbl.
Proof.
  destruct (parseSource_total str delim) as (src & next & Hsrc).
  destruct (parseLabel_Source _ _ _ _ Hsrc) as (lbl & Hlbl & HS).
  assert (Source lbl ≠ "") as Hne.
  { rewrite HS. by case_bool_decide. }
  unfold parseSelectLabel. rewrite Hlbl. cbn [mbind option_bind].
  clear HS. destruct (bool_decide_reflect (Source lbl = LabelSourceUnspec)) as [Hu|Hu].
  - exists lbl, {| Key := Key lbl; Value := Value lbl; Source := LabelSourceAny |}.
    by repeat split.
  - exists lbl, lbl. by repeat split.
Qed.

(** ** Building a label from a key, a value and a source *)

(** X4: [NewLabel] returns on every input, and a source argument that is
    not empty is the source of the result whatever the key says, also
    when the key starts with a dollar sign. *)
Theorem NewLabel_explicit_source (key value source : string) :
  source ≠ "" →
  ∃ lbl, NewLabel key value source = Some lbl ∧ Source lbl = source.
Proof.
  intros Hsource. unfold NewLabel.
  destruct (parseSource_total key ":") as (src & next & ->).
  cbn [mbind option_bind]. rewrite (bool_decide_false (source = "")) by done.
  destruct (bool_decide (src = LabelSourceReserved) && bool_decide (next = ""));
    eauto.
Qed.

Lemma NewLabel_explicit_source_witness :
  ∃ lbl, NewLabel "$host" "" "k8s" = Some lbl ∧ Source lbl = "k8s".
Proof. apply (NewLabel_explicit_source "$host" "" "k8s"). discriminate. Defined.

(** With an empty source argument [NewLabel] takes the source that
    [parseSource] reads off the key, or [unspec] when there is none; the
    key of the result is the remainder of the key text, except that a
    reserved source with an empty remainder turns the value into the key
    and leaves the value empty. *)
Lemma NewLabel_parsed_source (key value src next : string) :
  parseSource key ":" = Some (src, next) →
  NewLabel key value "" =
    Some (if bool_decide (src = LabelSourceReserved ∧ next = "")
          then {| Key := value; Value := ""; Source := LabelSourceReserved |}
          else {| Key := next; Value := value;
                  Source := if bool_decide (src = "") then LabelSourceUnspec else src |}).
Proof.
  intros Hsrc. unfold NewLabel. rewrite Hsrc. cbn [mbind option_bind].
  rewrite (bool_decide_true ("" = "")) by done.
  destruct (decide (src = LabelSourceReserved)) as [->|Hres].
  - rewrite (bool_decide_true (LabelSourceReserved = LabelSourceReserved)) by done.
    cbn [andb]. destruct (decide (next = "")) as [->|Hnext].
    + reflexivity.
    + rewrite (bool_decide_false (next = "")) by done.
      by rewrite (bool_decide_false (_ ∧ _)) by (by intros [_ ?]).
  - rewrite (bool_decide_false (src = LabelSourceReserved)) by done. cbn [andb].
    by rewrite (bool_decide_false (_ ∧ _)) by (by intros [? _]).
Qed.

(** ** Extended keys *)

(** X6: for a printable label the extended key computed from its text is
    the extended key of the label, [source.key], whether or not the text
    carries a value. *)
Theorem GetExtendedKeyFrom_Label_String (lbl : Label) :
  printable lbl →
  GetExtendedKeyFrom (Label_String lbl) = Some (GetExtendedKey lbl).
Proof.
  intros (Hsrc & Hcolon & Hdollar & Hkey & Heq).
  unfold GetExtendedKeyFrom, GetExtendedKey, Label_String.
  destruct (Z.eqb_spec (len (Value lbl)) 0) as [H0|H0]; cbn [negb].
  - change (Source lbl ++ ":" ++ Key lbl)%string
      with (Source lbl ++ String ":" (Key lbl))%string.
    rewrite parseSource_explicit by done. cbn [mbind option_bind]. cbv zeta.
    rewrite bool_decide_false by done.
    rewrite IndexByte_absent by done. done.
  - change (Source lbl ++ ":" ++ Key lbl ++ "=" ++ Value lbl)%string
      with (Source lbl ++ String ":" (Key lbl ++ String "=" (Value lbl)))%string.
    rewrite parseSource_explicit by done. cbn [mbind option_bind]. cbv zeta.
    rewrite bool_decide_false by done.
    rewrite IndexByte_first by done. pose proof (len_nonneg (Key lbl)).
    destruct (Z.geb_spec (len (Key lbl)) 0); [|lia].
    by rewrite slice_to_app.
Qed.

Lemma GetExtendedKeyFrom_Label_String_witness :
  GetExtendedKeyFrom (Label_String example_label) = Some (GetExtendedKey example_label).
Proof.
  apply (GetExtendedKeyFrom_Label_String example_label).
  unfold printable, example_label. cbn [Source Key].
  repeat split; first [ discriminate | apply (bool_decide_unpack _); vm_compute; exact I ].
Defined.

(** X7: when the source of a label holds no dot, [GetCiliumKeyFrom] turns
    its extended key [source.key] into [source:key]; an extended key
    without any dot is given the source [any]. *)
Theorem GetCiliumKeyFrom_GetExtendedKey (lbl : Label) (extKey : string) :
  "."%char ∉ list_ascii_of_string (Source lbl) →
  "."%char ∉ list_ascii_of_string extKey →
  GetCiliumKeyFrom (GetExtendedKey lbl) = Some (Source lbl ++ ":" ++ Key lbl)%string
  ∧ GetCiliumKeyFrom extKey = Some ("any:" ++ extKey)%string.
Proof.
  intros Hdot Hext. unfold GetCiliumKeyFrom, GetExtendedKey.
  change (index PathDelimiter 0) with (Some "."%char). cbn [mbind option_bind].
  cbv zeta. split.
  - change (Source lbl ++ PathDelimiter ++ Key lbl)%string
      with (Source lbl ++ String "." (Key lbl))%string.
    rewrite IndexByte_first by done. pose proof (len_nonneg (Source lbl)).
    destruct (Z.geb_spec (len (Source lbl)) 0); [|lia].
    by rewrite slice_to_app, slice_from_app.
  - by rewrite IndexByte_absent.
Qed.

Lemma GetCiliumKeyFrom_GetExtendedKey_witness :
  GetCiliumKeyFrom (GetExtendedKey example_label) = Some "k8s:role"
  ∧ GetCiliumKeyFrom "role" = Some "any:role".
Proof.
  apply (GetCiliumKeyFrom_GetExtendedKey example_label "role");
    apply (bool_decide_unpack _); vm_compute; exact I.
Defined.

(** ** Matching of single labels as an order *)

Lemma Label_Equals_true (a b : Label) :
  Label_Equals a b = true ↔
  Key a = Key b ∧ Value a = Value b
  ∧ (Source a = LabelSourceAny ∨ Source a = Source b).
Proof.
  unfold Label_Equals, IsAnySource.
  destruct (bool_decide_reflect (Source a = LabelSourceAny)),
    (bool_decide_reflect (Source a = Source b)),
    (bool_decide_reflect (Key a = Key b)),
    (bool_decide_reflect (Value a = Value b)); simpl;
    intuition (auto; congruence).
Qed.

(** X8: [Label.Equals] is reflexive and transitive, and two labels that
    match each other in both directions are the same label. *)
Theorem Label_Equals_order :
  (∀ a, Label_Equals a a = true)
  ∧ (∀ a b c, Label_Equals a b = true → Label_Equals b c = true →
       Label_Equals a c = true)
  ∧ (∀ a b, Label_Equals a b = true → Label_Equals b a = true → a = b).
Proof.
  split; [|split].
  - intros a. apply Label_Equals_true. auto.
  - intros a b c (Hk1 & Hv1 & Hs1)%Label_Equals_true
      (Hk2 & Hv2 & Hs2)%Label_Equals_true.
    apply Label_Equals_true. split; [congruence|]. split; [congruence|].
    destruct Hs1 as [?|Hs1]; [by left|].
    destruct Hs2 as [Hs2|Hs2]; [left|right]; congruence.
  - intros [ka va sa] [kb vb sb] (Hk1 & Hv1 & Hs1)%Label_Equals_true
      (_ & _ & Hs2)%Label_Equals_true. simpl in *. subst.
    f_equal. destruct Hs1 as [->|?]; [|done].
    destruct Hs2 as [->|?]; done.
Qed.

(** ** Maps built by a loop of writes *)

Section built_maps.

Implicit Types (σ : gmap positive (gmap string Label)) (m mt : gmap string Label).
Implicit Types (l : Labels).
Implicit Types (entries es : list (string * Label)) (p q : positive).

Lemma write_all_lookup_in m es k v :
  write_all m es !! k = Some v → (k, v) ∈ es ∨ m !! k = Some v.
Proof.
  revert m. induction es as [|[k' v'] rest IH]; intros m; [by right|].
  unfold write_all. simpl. fold (write_all (<[k' := v']> m) rest).
  intros [Hin|Hm]%IH; [left; by right|].
  destruct (decide (k' = k)) as [->|Hne].
  - rewrite lookup_insert_eq in Hm. simplify_eq. left. by left.
  - rewrite lookup_insert_ne in Hm by done. by right.
Qed.

Lemma write_all_empty_eq es mt :
  NoDup es.*1 → (∀ k v, (k, v) ∈ es ↔ mt !! k = Some v) → write_all ∅ es = mt.
Proof.
  intros Hdup Hes. apply map_eq. intros k. apply option_eq. intros v.
  by rewrite write_all_empty_lookup, Hes.
Qed.

Lemma write_all_map_to_list mt : write_all ∅ (map_to_list mt) = mt.
Proof.
  apply write_all_empty_eq; [apply NoDup_fst_map_to_list|].
  intros k v. apply elem_of_map_to_list.
Qed.

Lemma alloc_fresh σ : (alloc σ).1 ∉ dom σ.
Proof. apply is_fresh. Qed.

Lemma insert_fresh_old σ m q :
  q ∈ dom σ → <[fresh (dom σ) := m]> σ !! q = σ !! q.
Proof.
  intros Hq. apply lookup_insert_ne. intros Heq. subst q.
  by apply (is_fresh (dom σ)).
Qed.

Lemma GetFromSource_loop_ref σ p m source entries :
  σ !! p = Some m →
  GetFromSource_loop σ (LRef p) source entries
    = Some (<[p := write_all m (filter (λ e, Source e.2 = source) entries)]> σ).
Proof.
  revert σ m. induction entries as [|[k lbl] rest IH]; intros σ m Hp;
    cbn [GetFromSource_loop].
  { by rewrite insert_id. }
  destruct (bool_decide_reflect (Source lbl = source)) as [Hs|Hs].
  - rewrite (map_assign_ref _ _ m) by done. cbn [mbind option_bind].
    rewrite (IH _ (<[k := lbl]> m)) by apply lookup_insert_eq.
    rewrite insert_insert_eq. by rewrite filter_cons_True.
  - rewrite (IH _ m) by done. by rewrite filter_cons_False.
Qed.

Lemma GetFromSource_eq σ l source :
  GetFromSource σ l source
    = Some (<[fresh (dom σ) :=
               write_all ∅ (filter (λ e, Source e.2 = source)
                              (map_to_list (contents σ l)))]> σ,
            LRef (fresh (dom σ))).
Proof.
  unfold GetFromSource, alloc.
  rewrite (GetFromSource_loop_ref _ _ ∅) by apply lookup_insert_eq.
  cbn [mbind option_bind]. by rewrite insert_insert_eq.
Qed.

Lemma FindReserved_eq σ l :
  FindReserved σ l
    = (let R := write_all ∅ (filter is_reserved (map_to_list (contents σ l))) in
       Some (<[fresh (dom σ) := R]> σ,
             if bool_decide (0 < size R)%nat then LRef (fresh (dom σ)) else LNil)).
Proof.
  unfold FindReserved, alloc.
  rewrite (FindReserved_loop_ref _ _ ∅) by apply lookup_insert_eq.
  cbn [mbind option_bind contents]. rewrite insert_insert_eq, lookup_insert_eq.
  cbn [from_option id]. cbv zeta. by case_bool_decide.
Qed.

Lemma filtered_lookup (P : string * Label → Prop) `{∀ e, Decision (P e)} mt k v :
  write_all ∅ (filter P (map_to_list mt)) !! k = Some v ↔ mt !! k = Some v ∧ P (k, v).
Proof.
  rewrite write_all_empty_lookup by apply NoDup_filter_keys.
  rewrite list_elem_of_filter, elem_of_map_to_list. tauto.
Qed.

Lemma IsReserved_loop_true entries :
  IsReserved_loop entries = true ↔
  ∃ k lbl, (k, lbl) ∈ entries ∧ Source lbl = LabelSourceReserved.
Proof.
  induction entries as [|[k lbl] rest IH]; simpl.
  { split; [done|]. intros (k & lbl & Hin & _). by apply elem_of_nil in Hin. }
  destruct (bool_decide_reflect (Source lbl = LabelSourceReserved)) as [Hs|Hs].
  - split; [|done]. intros _. exists k, lbl. split; [by left|done].
  - rewrite IH. split.
    + intros (k' & lbl' & Hin & Hres). exists k', lbl'. split; [by right|done].
    + intros (k' & lbl' & [[= -> ->]|Hin]%elem_of_cons & Hres); [done|].
      by exists k', lbl'.
Qed.

End built_maps.

(** ** Selection by source *)

(** X9: [GetFromSource] always returns a reference to a new map object,
    never nil, that holds exactly the entries of the receiver whose source
    is the given one; no object that existed before the call changes. *)
Theorem GetFromSource_spec (σ : gmap positive (gmap string Label)) (l : Labels)
    (source : string) :
  ∃ σ' p, GetFromSource σ l source = Some (σ', LRef p)
    ∧ (p ∉ dom σ)
    ∧ (∀ q, q ∈ dom σ → σ' !! q = σ !! q)
    ∧ (∀ k lbl, contents σ' (LRef p) !! k = Some lbl ↔
         contents σ l !! k = Some lbl ∧ Source lbl = source).
Proof.
  rewrite GetFromSource_eq. eexists _, _. split; [done|].
  split; [apply is_fresh|]. split; [intros q; apply insert_fresh_old|].
  intros k lbl. cbn [contents]. rewrite lookup_insert_eq. cbn [from_option id].
  by rewrite filtered_lookup.
Qed.

(** X10: [FindReserved] is [GetFromSource] for the source [reserved] with
    an empty result replaced by nil: both calls leave the same store, and
    [FindReserved] returns the reference [GetFromSource] returns exactly
    when [IsReserved] is true, nil otherwise. *)
Theorem FindReserved_GetFromSource (σ : gmap positive (gmap string Label))
    (l : Labels) :
  ∃ σ' p r,
    GetFromSource σ l LabelSourceReserved = Some (σ', LRef p)
    ∧ FindReserved σ l = Some (σ', r)
    ∧ r = (if IsReserved (contents σ l) then LRef p else LNil)
    ∧ (IsReserved (contents σ l) = false → contents σ' (LRef p) = ∅).
Proof.
  rewrite GetFromSource_eq, FindReserved_eq. cbv zeta.
  set (R := write_all ∅ (filter is_reserved (map_to_list (contents σ l)))).
  change (write_all ∅ (filter _ (map_to_list (contents σ l)))) with R.
  assert (IsReserved (contents σ l) = bool_decide (0 < size R)%nat) as Hres.
  { apply eq_true_iff_eq. unfold IsReserved. rewrite IsReserved_loop_true.
    rewrite bool_decide_eq_true. split.
    - intros (k & lbl & Hin%elem_of_map_to_list & Hs).
      assert (R !! k = Some lbl) as HR by (by apply filtered_lookup).
      assert (size R ≠ 0%nat); [|lia].
      apply map_size_ne_0_lookup. by exists k, lbl.
    - intros Hsz. assert (size R ≠ 0%nat) as Hne by lia.
      apply map_size_ne_0_lookup in Hne as (k & lbl & [Hk Hs]%filtered_lookup).
      exists k, lbl. split; [by apply elem_of_map_to_list|done]. }
  eexists _, _, _. split; [done|]. split; [done|]. split; [by rewrite Hres|].
  rewrite Hres. intros Hsz%bool_decide_eq_false.
  cbn [contents]. rewrite lookup_insert_eq. cbn [from_option id].
  apply map_size_empty_iff. lia.
Qed.

(** ** Prefixed keys *)

Section prefixed.

Implicit Types (σ : gmap positive (gmap string Label)) (m mt : gmap string Label).
Implicit Types (entries : list (string * Label)) (prefix : string).

Lemma AppendPrefixInKey_loop_ref σ p m prefix entries :
  σ !! p = Some m →
  AppendPrefixInKey_loop σ (LRef p) prefix entries
    = Some (<[p := write_all m
                     ((λ e, ((prefix ++ e.1)%string,
                             {| Key := (prefix ++ Key e.2)%string;
                                Value := Value e.2; Source := Source e.2 |}))
                        <$> entries)]> σ).
Proof.
  revert σ m. induction entries as [|[k v] rest IH]; intros σ m Hp;
    cbn [AppendPrefixInKey_loop].
  { by rewrite insert_id. }
  rewrite (map_assign_ref _ _ m) by done. cbn [mbind option_bind].
  erewrite IH by apply lookup_insert_eq. by rewrite insert_insert_eq.
Qed.

Lemma prefixed_keys_NoDup prefix entries :
  NoDup entries.*1 →
  NoDup ((λ e : string * Label,
            ((prefix ++ e.1)%string,
             {| Key := (prefix ++ Key e.2)%string;
                Value := Value e.2; Source := Source e.2 |})) <$> entries).*1.
Proof.
  intros Hdup. rewrite <- list_fmap_compose.
  rewrite (list_fmap_ext _ (String.append prefix ∘ fst) entries)
    by (by intros _ [k v] _).
  rewrite list_fmap_compose. apply NoDup_fmap_2; [|done].
  intros k1 k2. apply app_inv_head_string.
Qed.

End prefixed.

(** X11: [AppendPrefixInKey] returns a reference to a new map object in
    which every entry [(k, v)] of the receiver appears under [prefix+k]
    with the key field [prefix+v.Key] and the value and source of [v],
    and nothing else; the number of entries is kept, a receiver that
    stores every label under its own key gives a result that does too,
    and no object that existed before the call changes. *)
Theorem AppendPrefixInKey_spec (σ : gmap positive (gmap string Label)) (l : Labels)
    (prefix : string) :
  ∃ σ' p, AppendPrefixInKey σ l prefix = Some (σ', LRef p)
    ∧ (p ∉ dom σ)
    ∧ (∀ q, q ∈ dom σ → σ' !! q = σ !! q)
    ∧ (∀ k' v', contents σ' (LRef p) !! k' = Some v' ↔
         ∃ k v, contents σ l !! k = Some v
           ∧ k' = (prefix ++ k)%string
           ∧ v' = {| Key := (prefix ++ Key v)%string;
                     Value := Value v; Source := Source v |})
    ∧ size (contents σ' (LRef p)) = size (contents σ l)
    ∧ (stored_under_key (contents σ l) → stored_under_key (contents σ' (LRef p))).
Proof.
  unfold AppendPrefixInKey, alloc.
  rewrite (AppendPrefixInKey_loop_ref _ _ ∅) by apply lookup_insert_eq.
  cbn [mbind option_bind]. rewrite insert_insert_eq.
  set (f := λ e : string * Label,
              ((prefix ++ e.1)%string,
               {| Key := (prefix ++ Key e.2)%string;
                  Value := Value e.2; Source := Source e.2 |})).
  set (es := f <$> map_to_list (contents σ l)).
  assert (NoDup es.*1) as Hdup.
  { apply prefixed_keys_NoDup, NoDup_fst_map_to_list. }
  assert (∀ k' v', write_all ∅ es !! k' = Some v' ↔
            ∃ k v, contents σ l !! k = Some v ∧ k' = (prefix ++ k)%string
              ∧ v' = {| Key := (prefix ++ Key v)%string;
                        Value := Value v; Source := Source v |}) as Hlookup.
  { intros k' v'. rewrite write_all_empty_lookup by done.
    unfold es. rewrite list_elem_of_fmap. split.
    - intros ([k v] & [= -> ->] & Hin%elem_of_map_to_list). by exists k, v.
    - intros (k & v & Hk & -> & ->). exists (k, v).
      split; [done|]. by apply elem_of_map_to_list. }
  eexists _, _. split; [done|]. split; [apply is_fresh|].
  split; [intros q; apply insert_fresh_old|].
  cbn [contents]. rewrite lookup_insert_eq. cbn [from_option id].
  split; [done|]. split.
  - assert (map_to_list (write_all ∅ es) ≡ₚ es) as Hperm.
    { apply NoDup_Permutation.
      - apply NoDup_map_to_list.
      - eapply NoDup_fmap_1, Hdup.
      - intros [k v]. by rewrite elem_of_map_to_list, write_all_empty_lookup. }
    rewrite <- !length_map_to_list, Hperm. unfold es. by rewrite length_fmap.
  - intros Hinv k' v' (k & v & Hk & -> & ->)%Hlookup. simpl.
    by rewrite (Hinv k v Hk).
Qed.

(** ** Label sets read from texts *)

Section from_texts.

Implicit Types (σ : gmap positive (gmap string Label)) (m mt : gmap string Label).
Implicit Types (base : list string) (lbls : list Label).

Lemma filter_all {A} (P : A → Prop) `{∀ x, Decision (P x)} (xs : list A) :
  Forall P xs → filter P xs = xs.
Proof.
  induction 1 as [|x xs Hx _ IH]; [done|].
  by rewrite filter_cons_True, IH.
Qed.

Lemma NewLabelsFromModel_loop_ref σ p m base lbls :
  σ !! p = Some m →
  Forall2 (λ t lbl, ParseLabel t = Some lbl) base lbls →
  NewLabelsFromModel_loop σ (LRef p) base
    = Some (<[p := write_all m (keyed lbls)]> σ).
Proof.
  intros Hp Hparsed. revert σ m Hp.
  induction Hparsed as [|t lbl base lbls Ht _ IH]; intros σ m Hp;
    cbn [NewLabelsFromModel_loop].
  { unfold keyed. simpl. by rewrite insert_id. }
  rewrite Ht. cbn [mbind option_bind]. unfold keyed. rewrite fmap_cons.
  destruct (bool_decide_reflect (Key lbl = "")) as [Hk|Hk]; cbn [negb].
  - rewrite (IH _ m) by done. by rewrite filter_cons_False by (simpl; auto).
  - rewrite (map_assign_ref _ _ m) by done. cbn [mbind option_bind].
    rewrite (IH _ (<[Key lbl := lbl]> m)) by apply lookup_insert_eq.
    rewrite insert_insert_eq. by rewrite filter_cons_True.
Qed.

Lemma ParseLabel_all base :
  ∃ lbls, Forall2 (λ t lbl, ParseLabel t = Some lbl) base lbls.
Proof.
  induction base as [|t base [lbls IH]]; [by exists []|].
  destruct (parseLabel_total t ":") as [lbl Hlbl].
  exists (lbl :: lbls). by constructor.
Qed.

Lemma NewLabelsFromModel_eq σ base lbls :
  Forall2 (λ t lbl, ParseLabel t = Some lbl) base lbls →
  NewLabelsFromModel σ base
    = Some (<[fresh (dom σ) := write_all ∅ (keyed lbls)]> σ, LRef (fresh (dom σ))).
Proof.
  intros Hparsed. unfold NewLabelsFromModel, alloc.
  rewrite (NewLabelsFromModel_loop_ref _ _ ∅ _ lbls)
    by (done || apply lookup_insert_eq).
  cbn [mbind option_bind]. by rewrite insert_insert_eq.
Qed.

Lemma elem_of_keyed lbls k lbl :
  (k, lbl) ∈ keyed lbls ↔ lbl ∈ lbls ∧ Key lbl = k ∧ k ≠ "".
Proof.
  unfold keyed. rewrite list_elem_of_filter, list_elem_of_fmap. simpl. split.
  - intros (Hk & lbl' & [= -> ->] & Hin). done.
  - intros (Hin & <- & Hk). split; [done|]. by exists lbl.
Qed.

(** The labels of a set that stores each label under its non-empty key,
    listed in any order without repetition of keys, are written back as
    the set. *)
Lemma write_all_keyed mt (keys : list string) :
  stored_under_key mt →
  NoDup keys →
  (∀ k, k ∈ keys ↔ is_Some (mt !! k)) →
  (∀ k, is_Some (mt !! k) → k ≠ "") →
  write_all ∅ (keyed ((λ k, mt !!! k) <$> keys)) = mt.
Proof.
  intros Hinv Hdup Hkeys Hne.
  assert (keyed ((λ k, mt !!! k) <$> keys) = (λ k, (k, mt !!! k)) <$> keys) as ->.
  { unfold keyed. rewrite <- list_fmap_compose.
    rewrite (list_fmap_ext _ (λ k, (k, mt !!! k)) keys).
    - apply filter_all. apply Forall_fmap, Forall_forall.
      intros k Hk%Hkeys. simpl. by apply Hne.
    - intros _ k Hk%list_elem_of_lookup_2%Hkeys. simpl.
      destruct Hk as [lbl Hk]. rewrite (lookup_total_correct _ _ _ Hk).
      by rewrite (Hinv _ _ Hk). }
  apply write_all_empty_eq.
  - rewrite <- list_fmap_compose.
    by rewrite (list_fmap_ext _ id keys), list_fmap_id by done.
  - intros k v. rewrite list_elem_of_fmap. split.
    + intros (k' & [= -> ->] & [lbl Hk]%Hkeys).
      by rewrite (lookup_total_correct _ _ _ Hk).
    + intros Hk. exists k. split; [|apply Hkeys; by eexists].
      by rewrite (lookup_total_correct _ _ _ Hk).
Qed.

End from_texts.

(** X12: [NewLabelsFromModel] returns, for every list of texts, a
    reference to a new map object in which every label is stored under
    its own key, no key is empty, and every label is the parse of one of
    the texts; texts that parse to an empty key are left out. *)
Theorem NewLabelsFromModel_invariant (σ : gmap positive (gmap string Label))
    (base : list string) :
  ∃ σ' p, NewLabelsFromModel σ base = Some (σ', LRef p)
    ∧ (p ∉ dom σ)
    ∧ (∀ q, q ∈ dom σ → σ' !! q = σ !! q)
    ∧ stored_under_key (contents σ' (LRef p))
    ∧ (∀ k lbl, contents σ' (LRef p) !! k = Some lbl →
         k ≠ "" ∧ IsValid lbl = true ∧ ∃ t, t ∈ base ∧ ParseLabel t = Some lbl).
Proof.
  destruct (ParseLabel_all base) as [lbls Hparsed].
  rewrite (NewLabelsFromModel_eq _ _ lbls) by done.
  eexists _, _. split; [done|]. split; [apply is_fresh|].
  split; [intros q; apply insert_fresh_old|].
  cbn [contents]. rewrite lookup_insert_eq. cbn [from_option id].
  assert (∀ k lbl, write_all ∅ (keyed lbls) !! k = Some lbl →
            lbl ∈ lbls ∧ Key lbl = k ∧ k ≠ "") as Hin.
  { intros k lbl [Hin|Hin]%write_all_lookup_in; [by apply elem_of_keyed|].
    by rewrite lookup_empty in Hin. }
  split.
  - intros k lbl (_ & Hk & _)%Hin. done.
  - intros k lbl (Hlbl & Hk & Hne)%Hin. split; [done|]. split.
    + unfold IsValid. rewrite bool_decide_false; [done|]. by rewrite Hk.
    + apply list_elem_of_lookup in Hlbl as [i Hi].
      destruct (Forall2_lookup_r _ _ _ _ _ Hparsed Hi) as (t & Ht & Hpt).
      exists t. split; [|done]. by apply list_elem_of_lookup_2 in Ht.
Qed.

(** ** Reading back what was written *)

Section read_back.

Implicit Types (σ : gmap positive (gmap string Label)) (mt : gmap string Label).
Implicit Types (lbls : list Label) (ts : list string).

Lemma GetModel_from_eq (entries : list (string * Label)) :
  GetModel_from entries = Label_String <$> entries.*2.
Proof.
  unfold GetModel_from.
  assert (∀ acc : list string,
            foldl (λ (res : list string) e, (res ++ [Label_String e.2])%list) acc entries
            = (acc ++ (Label_String <$> entries.*2))%list) as Hloop.
  { induction entries as [|e entries IH]; intros acc; simpl.
    - by rewrite app_nil_r.
    - rewrite IH. by rewrite <- app_assoc. }
  by rewrite Hloop.
Qed.

Lemma Split_piece (t rest : string) (sep : ascii) :
  sep ∉ list_ascii_of_string t →
  Split (t ++ String sep rest) sep = t :: Split rest sep.
Proof.
  induction t as [|c t IH]; simpl.
  - intros _. by rewrite Ascii.eqb_refl.
  - intros [Hne Ht]%not_elem_of_cons.
    destruct (Ascii.eqb_spec c sep) as [->|_]; [done|].
    by rewrite IH.
Qed.

Lemma Split_records ts (sep : ascii) :
  Forall (λ t, sep ∉ list_ascii_of_string t) ts →
  Split (join_records ((λ t, t ++ String sep "")%string <$> ts)) sep
    = (ts ++ [""])%list.
Proof.
  induction 1 as [|t ts Ht _ IH]; [done|].
  rewrite fmap_cons. cbn [join_records foldr].
  rewrite app_assoc_string. change (String sep "" ++ ?r)%string with (String sep r).
  rewrite Split_piece by done. fold (join_records ((λ t, t ++ String sep "")%string <$> ts)).
  by rewrite IH.
Qed.

Lemma kv_record_text (lbl : Label) : kv_record lbl = (kv_text lbl ++ ";")%string.
Proof.
  unfold kv_record, kv_text.
  change (?a ++ ":" ++ ?b)%string with (a ++ (":" ++ b))%string.
  change (Key lbl ++ "=" ++ ?b)%string with (Key lbl ++ ("=" ++ b))%string.
  by rewrite !app_assoc_string.
Qed.

Lemma kv_text_no_semicolon (lbl : Label) :
  no_semicolon lbl → ";"%char ∉ list_ascii_of_string (kv_text lbl).
Proof.
  intros (Hs & Hk & Hv). unfold kv_text.
  change (Source lbl ++ ":" ++ Key lbl ++ "=" ++ Value lbl)%string
    with (Source lbl ++ String ":" (Key lbl ++ String "=" (Value lbl)))%string.
  rewrite list_ascii_of_string_app. simpl. rewrite list_ascii_of_string_app. simpl.
  rewrite elem_of_app, elem_of_cons, elem_of_app, elem_of_cons.
  intros [?|[?|[?|[?|?]]]]; by auto.
Qed.

Lemma NewLabelsFromModel_GetModel_eq σ mt (entries : list (string * Label)) :
  stored_under_key mt →
  (∀ k lbl, mt !! k = Some lbl → printable lbl) →
  entries ≡ₚ map_to_list mt →
  NewLabelsFromModel σ (GetModel_from entries)
    = Some (<[fresh (dom σ) := mt]> σ, LRef (fresh (dom σ))).
Proof.
  intros Hinv Hprint Hperm.
  assert (∀ k lbl, (k, lbl) ∈ entries ↔ mt !! k = Some lbl) as Hin.
  { intros k lbl. by rewrite Hperm, elem_of_map_to_list. }
  rewrite GetModel_from_eq.
  rewrite (NewLabelsFromModel_eq _ _ entries.*2).
  2:{ apply Forall2_fmap_l, Forall_Forall2_diag, Forall_forall.
      intros lbl ([k lbl'] & -> & Hk%Hin)%list_elem_of_fmap.
      apply ParseLabel_Label_String_aux. by apply (Hprint k). }
  do 3 f_equal. apply write_all_empty_eq.
  - unfold keyed. eapply sublist_NoDup; [|apply fmap_sublist, sublist_filter].
    rewrite <- !list_fmap_compose.
    rewrite (list_fmap_ext _ fst entries).
    + rewrite Hperm. apply NoDup_fst_map_to_list.
    + intros _ [k lbl] Hk%list_elem_of_lookup_2%Hin. simpl. by apply Hinv.
  - intros k lbl. rewrite elem_of_keyed, <- Hin. split.
    + intros (([k' lbl'] & -> & Hk)%list_elem_of_fmap & <- & _). simpl.
      pose proof Hk as Hk'%Hin%Hinv. simpl in Hk'. by rewrite Hk'.
    + intros Hk. pose proof Hk as Hmt%Hin.
      split; [apply list_elem_of_fmap; by exists (k, lbl)|].
      split; [by apply Hinv|].
      destruct (Hprint k lbl Hmt) as (_ & _ & _ & Hkey & _).
      by rewrite <- (Hinv k lbl Hmt).
Qed.

Lemma NewLabelsFromSortedList_SortedList_eq σ mt :
  canonical mt →
  NewLabelsFromSortedList σ (string_of_list_byte (SortedList mt))
    = Some (<[fresh (dom σ) := mt]> σ, LRef (fresh (dom σ))).
Proof.
  intros [Hinv Hwf]. unfold NewLabelsFromSortedList, SortedList.
  rewrite SortedList_from_eq, string_of_list_byte_of_string.
  set (keys := sort_Strings (map_to_list mt).*1).
  assert (∀ k, k ∈ keys ↔ is_Some (mt !! k)) as Hkeys.
  { intros k. unfold keys. by rewrite elem_of_sort_Strings, elem_of_keys. }
  set (lbls := (λ k, mt !!! k) <$> keys).
  assert (∀ lbl, lbl ∈ lbls → printable lbl ∧ no_semicolon lbl) as Hlbls.
  { intros lbl (k & -> & [lbl' Hk]%Hkeys)%list_elem_of_fmap.
    rewrite (lookup_total_correct _ _ _ Hk). by apply (Hwf k). }
  assert ((λ k, kv_record (mt !!! k)) <$> keys
          = (λ t, t ++ String ";" "")%string <$> (kv_text <$> lbls)) as ->.
  { unfold lbls. rewrite <- !list_fmap_compose. apply list_fmap_ext.
    intros _ k _. simpl. apply kv_record_text. }
  rewrite Split_records.
  2:{ apply Forall_fmap, Forall_forall. intros lbl [_ Hns]%Hlbls.
      by apply kv_text_no_semicolon. }
  rewrite (NewLabelsFromModel_eq _ _
             (lbls ++ [{| Key := ""; Value := ""; Source := LabelSourceUnspec |}])).
  2:{ apply Forall2_app; [|by repeat constructor].
      apply Forall2_fmap_l, Forall_Forall2_diag, Forall_forall.
      intros lbl [Hp _]%Hlbls. by apply ParseLabel_kv_text. }
  do 3 f_equal. unfold keyed. rewrite fmap_app, filter_app.
  rewrite list_fmap_singleton.
  rewrite (filter_cons_False _ _ []) by (simpl; auto).
  rewrite filter_nil, app_nil_r. apply write_all_keyed; [done| |done|].
  - unfold keys. rewrite sort_Strings_perm. apply NoDup_fst_map_to_list.
  - intros k [lbl Hk]. destruct (Hwf k lbl Hk) as [(_ & _ & _ & Hkey & _) _].
    by rewrite <- (Hinv k lbl Hk).
Qed.

End read_back.

Lemma canonical_example_canonical : canonical canonical_example.
Proof.
  assert (∀ k lbl, canonical_example !! k = Some lbl →
            (k = "app" ∧ lbl = mkLabel "app" "web" "k8s")
            ∨ (k = "host" ∧ lbl = mkLabel "host" "" "reserved")) as Hcases.
  { unfold canonical_example. intros k lbl.
    rewrite lookup_insert_Some, lookup_singleton_Some.
    intros [[<- <-]|[_ [<- <-]]]; auto. }
  split.
  - intros k lbl [[-> ->]|[-> ->]]%Hcases; done.
  - intros k lbl [[-> ->]|[-> ->]]%Hcases;
      (split; [unfold printable|unfold no_semicolon]); cbn [Source Key Value];
      repeat split;
      first [ discriminate | apply (bool_decide_unpack _); vm_compute; exact I ].
Qed.

(** X13: for a label set that stores every label under its own key and
    whose labels are printable, [NewLabelsFromModel] applied to the texts
    of [GetModel], in whatever order the map was visited, returns a new
    map object with the same contents. *)
Theorem NewLabelsFromModel_GetModel (σ : gmap positive (gmap string Label))
    (l : gmap string Label) (entries : list (string * Label)) :
  stored_under_key l →
  (∀ k lbl, l !! k = Some lbl → printable lbl) →
  entries ≡ₚ map_to_list l →
  ∃ σ' p, NewLabelsFromModel σ (GetModel_from entries) = Some (σ', LRef p)
    ∧ (p ∉ dom σ)
    ∧ contents σ' (LRef p) = l.
Proof.
  intros Hinv Hprint Hperm.
  rewrite (NewLabelsFromModel_GetModel_eq _ l) by done.
  eexists _, _. split; [done|]. split; [apply is_fresh|].
  cbn [contents]. by rewrite lookup_insert_eq.
Qed.

Lemma NewLabelsFromModel_GetModel_witness :
  ∃ σ' p, NewLabelsFromModel ∅ (GetModel_from (map_to_list canonical_example))
            = Some (σ', LRef p)
    ∧ (p ∉ dom (∅ : gmap positive (gmap string Label)))
    ∧ contents σ' (LRef p) = canonical_example.
Proof.
  apply (NewLabelsFromModel_GetModel ∅ canonical_example
           (map_to_list canonical_example)).
  - apply canonical_example_canonical.
  - intros k lbl Hk. by apply (proj2 canonical_example_canonical k lbl).
  - reflexivity.
Defined.

(** X14: for a canonical label set (every label stored under its own
    key, printable, and without semicolon in any field)
    [NewLabelsFromSortedList] applied to the text of [SortedList] returns
    a new map object with the same contents. *)
Theorem NewLabelsFromSortedList_SortedList (σ : gmap positive (gmap string Label))
    (l : gmap string Label) :
  canonical l →
  ∃ σ' p, NewLabelsFromSortedList σ (string_of_list_byte (SortedList l))
            = Some (σ', LRef p)
    ∧ (p ∉ dom σ)
    ∧ contents σ' (LRef p) = l.
Proof.
  intros Hcan. rewrite NewLabelsFromSortedList_SortedList_eq by done.
  eexists _, _. split; [done|]. split; [apply is_fresh|].
  cbn [contents]. by rewrite lookup_insert_eq.
Qed.

Lemma NewLabelsFromSortedList_SortedList_witness :
  ∃ σ' p, NewLabelsFromSortedList ∅ (string_of_list_byte (SortedList canonical_example))
            = Some (σ', LRef p)
    ∧ (p ∉ dom (∅ : gmap positive (gmap string Label)))
    ∧ contents σ' (LRef p) = canonical_example.
Proof.
  apply (NewLabelsFromSortedList_SortedList ∅ canonical_example).
  apply canonical_example_canonical.
Defined.

Lemma Labels_Equals_eq (l other : gmap string Label) :
  Labels_Equals l other = true ↔ l = other.
Proof.
  rewrite Labels_Equals_true. split.
  - intros [Hsz Hall]. apply map_subseteq_size_eq; [|lia].
    apply map_subseteq_spec. intros k lbl1 Hk.
    destruct (Hall k lbl1 Hk) as (lbl2 & Hk2 & ->%same_fields_eq). done.
  - intros ->. split; [done|]. intros k lbl1 Hk. exists lbl1.
    split; [done|]. by apply same_fields_eq.
Qed.

(** X15: on canonical label sets the serialization identifies the set:
    two canonical sets have the same [SortedList] exactly when
    [Labels.Equals] holds of them. *)
Theorem SortedList_identifies (l1 l2 : gmap string Label) :
  canonical l1 → canonical l2 →
  (SortedList l1 = SortedList l2 ↔ Labels_Equals l1 l2 = true).
Proof.
  intros H1 H2. rewrite Labels_Equals_eq. split; [|by intros ->].
  intros Heq.
  pose proof (NewLabelsFromSortedList_SortedList_eq ∅ l1 H1) as E1.
  pose proof (NewLabelsFromSortedList_SortedList_eq ∅ l2 H2) as E2.
  rewrite Heq, E2 in E1.
  set (p := fresh (dom (∅ : gmap positive (gmap string Label)))) in E1.
  assert (<[p := l2]> (∅ : gmap positive (gmap string Label)) !! p
          = <[p := l1]> (∅ : gmap positive (gmap string Label)) !! p) as E
    by congruence.
  rewrite !lookup_insert_eq in E. congruence.
Qed.

Lemma SortedList_identifies_witness :
  SortedList canonical_example = SortedList canonical_example
  ↔ Labels_Equals canonical_example canonical_example = true.
Proof.
  apply (SortedList_identifies canonical_example canonical_example);
    apply canonical_example_canonical.
Defined.

(** ** Merge as a union *)

Lemma write_all_union (m mf : gmap string Label) :
  write_all m (map_to_list mf) = mf ∪ m.
Proof.
  apply map_eq. intros k. rewrite lookup_union.
  destruct (mf !! k) as [v|] eqn:Hk.
  - rewrite (write_all_lookup_written _ _ _ v).
    + by destruct (m !! k).
    + apply NoDup_fst_map_to_list.
    + by apply elem_of_map_to_list.
  - rewrite write_all_lookup_other.
    + by destruct (m !! k).
    + intros ([k' v] & -> & Hin%elem_of_map_to_list)%list_elem_of_fmap.
      simpl in Hk. by rewrite Hk in Hin.
Qed.

Lemma MergeLabels_eq (σ : gmap positive (gmap string Label)) (p : positive)
    (from : Labels) (mto : gmap string Label) :
  σ !! p = Some mto →
  MergeLabels σ (LRef p) from = Some (<[p := contents σ from ∪ mto]> σ).
Proof.
  intros Hp. unfold MergeLabels.
  rewrite (MergeLabels_loop_ref _ _ mto) by done. by rewrite write_all_union.
Qed.

(** X16: a merge into a map object leaves in it the union of the two
    sets in which [from] wins on common keys.  Merging the same [from]
    once more changes nothing, and when every entry of [from] was already
    in the destination (in particular when a set is merged into itself)
    the store is left as it was. *)
Theorem MergeLabels_union (σ : gmap positive (gmap string Label)) (p : positive)
    (from : Labels) (mto : gmap string Label) :
  σ !! p = Some mto →
  ∃ σ', MergeLabels σ (LRef p) from = Some σ'
    ∧ contents σ' (LRef p) = contents σ from ∪ mto
    ∧ MergeLabels σ' (LRef p) from = Some σ'
    ∧ (contents σ from ⊆ mto → σ' = σ).
Proof.
  intros Hp. rewrite (MergeLabels_eq _ _ _ mto) by done.
  eexists. split; [done|].
  set (f := contents σ from). set (σ' := <[p := f ∪ mto]> σ).
  assert (contents σ' (LRef p) = f ∪ mto) as Hc.
  { cbn [contents]. unfold σ'. by rewrite lookup_insert_eq. }
  split; [done|]. split.
  - rewrite (MergeLabels_eq _ _ _ (f ∪ mto)) by apply lookup_insert_eq.
    assert (contents σ' from = f ∨ contents σ' from = f ∪ mto) as [->| ->].
    { destruct from as [|q]; [by left|].
      destruct (decide (q = p)) as [->|Hq]; [by right|left].
      cbn [contents]. unfold σ', f. cbn [contents].
      by rewrite lookup_insert_ne. }
    + rewrite (assoc_L (∪)), (idemp_L (∪)). unfold σ'.
      by rewrite insert_insert_eq.
    + rewrite (idemp_L (∪)). unfold σ'. by rewrite insert_insert_eq.
  - intros Hsub. unfold σ'. apply insert_id.
    rewrite Hp. f_equal. symmetry. by apply map_subseteq_union.
Qed.

Lemma MergeLabels_union_witness :
  ∃ σ', MergeLabels merge_store (LRef 1) (LRef 2) = Some σ'
    ∧ contents σ' (LRef 1) = contents merge_store (LRef 2) ∪ merge_destination
    ∧ MergeLabels σ' (LRef 1) (LRef 2) = Some σ'
    ∧ (contents merge_store (LRef 2) ⊆ merge_destination → σ' = merge_store).
Proof.
  apply (MergeLabels_union merge_store 1 (LRef 2) merge_destination). reflexivity.
Defined.

(** X17: a merge into a nil destination panics exactly when [from] holds
    an entry; with an empty or nil [from] it returns and changes nothing. *)
Theorem MergeLabels_nil (σ : gmap positive (gmap string Label)) (from : Labels) :
  (MergeLabels σ LNil from = None ↔ ∃ k lbl, contents σ from !! k = Some lbl)
  ∧ (MergeLabels σ LNil from = Some σ ↔ contents σ from = ∅)
  ∧ MergeLabels σ LNil LNil = Some σ.
Proof.
  unfold MergeLabels.
  destruct (map_to_list (contents σ from)) as [|[k v] rest] eqn:Hl.
  - apply map_to_list_empty_iff in Hl. rewrite Hl. cbn [MergeLabels_loop].
    split; [|split; [|done]].
    + split; [done|]. intros (k & lbl & Hk). by rewrite lookup_empty in Hk.
    + done.
  - assert (contents σ from !! k = Some v) as Hk.
    { apply elem_of_map_to_list. rewrite Hl. by left. }
    cbn [MergeLabels_loop map_assign mbind option_bind].
    split; [|split; [|done]].
    + split; [|done]. intros _. by exists k, v.
    + split; [done|]. intros He. by rewrite He, lookup_empty in Hk.
Qed.

(** ** Serializations that coincide *)

Lemma sort_Strings_two (k1 k2 : string) :
  key_lt k1 k2 → sort_Strings [k1; k2] = [k1; k2].
Proof.
  intros Hlt. apply sort_Strings_unique; [|done].
  repeat constructor. by apply key_lt_le.
Qed.

(** X18: the records are not escaped, so the serialization does not
    identify arbitrary label sets: for keys [k1 < k2], the one-entry set
    whose value spells out the end of a record and a second record has
    the same [SortedList] as the two-entry set, although [Labels.Equals]
    tells them apart. *)
Theorem SortedList_collision (s k1 v1 k2 v2 : string) :
  key_lt k1 k2 →
  SortedList {[ k1 := mkLabel k1 (v1 ++ ";" ++ s ++ ":" ++ k2 ++ "=" ++ v2) s ]}
    = SortedList {[ k1 := mkLabel k1 v1 s; k2 := mkLabel k2 v2 s ]}
  ∧ Labels_Equals
      {[ k1 := mkLabel k1 (v1 ++ ";" ++ s ++ ":" ++ k2 ++ "=" ++ v2) s ]}
      {[ k1 := mkLabel k1 v1 s; k2 := mkLabel k2 v2 s ]} = false.
Proof.
  intros Hlt.
  assert (k1 ≠ k2) as Hne by (by apply key_lt_spec in Hlt as [_ ?]).
  assert (({[ k2 := mkLabel k2 v2 s ]} : gmap string Label) !! k1 = None) as Hfresh
    by (by apply lookup_singleton_ne).
  split.
  - rewrite <- (SortedList_from_order [k1; k2]
                  {[ k1 := mkLabel k1 v1 s; k2 := mkLabel k2 v2 s ]}).
    2:{ rewrite map_to_list_insert by done. by rewrite map_to_list_singleton. }
    unfold SortedList. rewrite map_to_list_singleton. rewrite !SortedList_from_eq.
    rewrite sort_Strings_two by done.
    cbn [fmap list_fmap fst].
    assert (sort_Strings [k1] = [k1]) as ->.
    { apply sort_Strings_unique; [|done]. repeat constructor. }
    f_equal. cbn [fmap list_fmap].
    rewrite lookup_total_singleton_eq, lookup_total_insert_eq.
    rewrite lookup_total_insert_ne, lookup_total_singleton_eq by done.
    unfold join_records, kv_record. cbn [foldr Source Key Value].
    rewrite !app_empty_r.
    change (?a ++ ":" ++ ?b)%string with (a ++ (":" ++ b))%string.
    change (?a ++ "=" ++ ?b)%string with (a ++ ("=" ++ b))%string.
    change (?a ++ ";" ++ ?b)%string with (a ++ (";" ++ b))%string.
    by rewrite !app_assoc_string.
  - unfold Labels_Equals.
    rewrite map_size_singleton, map_size_insert_None, map_size_singleton by done.
    done.
Qed.

Lemma SortedList_collision_witness :
  SortedList {[ "a" := mkLabel "a" ("1" ++ ";" ++ "k8s" ++ ":" ++ "b" ++ "=" ++ "2") "k8s" ]}
    = SortedList {[ "a" := mkLabel "a" "1" "k8s"; "b" := mkLabel "b" "2" "k8s" ]}
  ∧ Labels_Equals
      {[ "a" := mkLabel "a" ("1" ++ ";" ++ "k8s" ++ ":" ++ "b" ++ "=" ++ "2") "k8s" ]}
      {[ "a" := mkLabel "a" "1" "k8s"; "b" := mkLabel "b" "2" "k8s" ]} = false.
Proof. apply (SortedList_collision "k8s" "a" "1" "b" "2"). reflexivity. Defined.

(** ** Label sets built from string maps *)

Section from_string_map.

Implicit Types (σ : gmap positive (gmap string Label)) (m mt : gmap string Label).
Implicit Types (entries : list (string * string)) (lbls : list Label).

Lemma NewLabel_total key value source : ∃ lbl, NewLabel key value source = Some lbl.
Proof.
  unfold NewLabel. destruct (parseSource_total key ":") as (src & next & ->).
  cbn [mbind option_bind].
  destruct (bool_decide (src = LabelSourceReserved) && bool_decide (next = ""));
    eauto.
Qed.

Lemma NewLabel_Some_source key value source lbl :
  source ≠ "" → NewLabel key value source = Some lbl → Source lbl = source.
Proof.
  intros Hsource. unfold NewLabel.
  destruct (parseSource_total key ":") as (src & next & ->).
  cbn [mbind option_bind]. rewrite (bool_decide_false (source = "")) by done.
  destruct (bool_decide (src = LabelSourceReserved) && bool_decide (next = ""));
    by intros [= <-].
Qed.

Lemma NewLabel_text (lbl : Label) :
  source_splits lbl →
  NewLabel (Source lbl ++ ":" ++ Key lbl) (Value lbl) "" = Some lbl.
Proof.
  intros (Hsrc & Hcolon & Hdollar & Hkey). unfold NewLabel.
  change (Source lbl ++ ":" ++ Key lbl)%string
    with (Source lbl ++ String ":" (Key lbl))%string.
  rewrite parseSource_explicit by done. cbn [mbind option_bind].
  rewrite (bool_decide_true ("" = "")) by done.
  rewrite (bool_decide_false (Source lbl = "")) by done.
  rewrite (bool_decide_false (Key lbl = "")) by done.
  rewrite andb_false_r. by destruct lbl.
Qed.

Lemma NewLabel_all entries source :
  ∃ lbls, Forall2 (λ e lbl, NewLabel e.1 e.2 source = Some lbl) entries lbls.
Proof.
  induction entries as [|[k v] entries [lbls IH]]; [by exists []|].
  destruct (NewLabel_total k v source) as [lbl Hlbl].
  exists (lbl :: lbls). by constructor.
Qed.

Lemma Map2Labels_loop_ref σ p m source entries lbls :
  σ !! p = Some m →
  Forall2 (λ e lbl, NewLabel e.1 e.2 source = Some lbl) entries lbls →
  Map2Labels_loop σ (LRef p) source entries
    = Some (<[p := write_all m ((λ lbl, (Key lbl, lbl)) <$> lbls)]> σ).
Proof.
  intros Hp Hall. revert σ m Hp.
  induction Hall as [|[k v] lbl entries lbls Hlbl _ IH]; intros σ m Hp;
    cbn [Map2Labels_loop].
  { by rewrite insert_id. }
  simpl in Hlbl. rewrite Hlbl. cbn [mbind option_bind].
  rewrite (map_assign_ref _ _ m) by done. cbn [mbind option_bind].
  rewrite (IH _ (<[Key lbl := lbl]> m)) by apply lookup_insert_eq.
  by rewrite insert_insert_eq.
Qed.

Lemma Map2Labels_from_eq σ source entries lbls :
  Forall2 (λ e lbl, NewLabel e.1 e.2 source = Some lbl) entries lbls →
  Map2Labels_from entries σ source
    = Some (<[fresh (dom σ) := write_all ∅ ((λ lbl, (Key lbl, lbl)) <$> lbls)]> σ,
            LRef (fresh (dom σ))).
Proof.
  intros Hall. unfold Map2Labels_from, alloc.
  rewrite (Map2Labels_loop_ref _ _ ∅ _ _ lbls) by (done || apply lookup_insert_eq).
  cbn [mbind option_bind]. by rewrite insert_insert_eq.
Qed.

(** Lookups in a map built by a loop of writes, for any type of values. *)
Lemma foldl_insert_other {V} (es : list (string * V)) (o : gmap string V) k :
  k ∉ es.*1 → foldl (λ o e, <[e.1 := e.2]> o) o es !! k = o !! k.
Proof.
  revert o. induction es as [|[k' v'] rest IH]; intros o Hk; [done|].
  rewrite fmap_cons in Hk. apply not_elem_of_cons in Hk as [Hne Hk].
  simpl. rewrite IH by done. by rewrite lookup_insert_ne.
Qed.

Lemma foldl_insert_written {V} (es : list (string * V)) (o : gmap string V) k v :
  NoDup es.*1 → (k, v) ∈ es →
  foldl (λ o e, <[e.1 := e.2]> o) o es !! k = Some v.
Proof.
  revert o. induction es as [|[k' v'] rest IH]; intros o Hdup Hin.
  { by apply elem_of_nil in Hin. }
  rewrite fmap_cons in Hdup. apply NoDup_cons in Hdup as [Hfresh Hdup]. simpl.
  apply elem_of_cons in Hin as [[= -> ->]|Hin].
  - rewrite foldl_insert_other by done. apply lookup_insert_eq.
  - by apply IH.
Qed.

Lemma foldl_insert_empty {V} (es : list (string * V)) k v :
  NoDup es.*1 →
  foldl (λ o e, <[e.1 := e.2]> o) (∅ : gmap string V) es !! k = Some v ↔ (k, v) ∈ es.
Proof.
  intros Hdup. split; [|by apply foldl_insert_written].
  intros Hk. destruct (decide (k ∈ es.*1)) as [Hin|Hout].
  - apply list_elem_of_fmap in Hin as ([k' v'] & -> & Hin). simpl in *.
    rewrite (foldl_insert_written _ _ _ v') in Hk by done. by simplify_eq.
  - rewrite foldl_insert_other in Hk by done. by rewrite lookup_empty in Hk.
Qed.

Lemma StringMap_from_eq (es : list (string * Label)) :
  StringMap_from es
    = foldl (λ o e, <[e.1 := e.2]> o) ∅
        ((λ e : string * Label,
            ((Source e.2 ++ ":" ++ Key e.2)%string, Value e.2)) <$> es).
Proof. unfold StringMap_from. by rewrite foldl_fmap. Qed.

(** The keys [source:key] of the string map tell the labels apart. *)
Lemma source_key_text_inj (a b : Label) :
  ":"%char ∉ list_ascii_of_string (Source a) →
  ":"%char ∉ list_ascii_of_string (Source b) →
  (Source a ++ ":" ++ Key a)%string = (Source b ++ ":" ++ Key b)%string →
  Source a = Source b ∧ Key a = Key b.
Proof. intros Ha Hb. by apply split_first_unique. Qed.

Lemma StringMap_entries mt :
  stored_under_key mt →
  (∀ k lbl, mt !! k = Some lbl → source_splits lbl) →
  map_to_list (StringMap mt)
    ≡ₚ (λ e : string * Label,
          ((Source e.2 ++ ":" ++ Key e.2)%string, Value e.2)) <$> map_to_list mt.
Proof.
  intros Hinv Hprint.
  set (f := λ e : string * Label,
              ((Source e.2 ++ ":" ++ Key e.2)%string, Value e.2)).
  assert (NoDup (f <$> map_to_list mt).*1) as Hdup.
  { rewrite <- list_fmap_compose. apply NoDup_fmap_2_strong; [|apply NoDup_map_to_list].
    intros [k1 a] [k2 b] Ha%elem_of_map_to_list Hb%elem_of_map_to_list Heq.
    simpl in Heq.
    destruct (Hprint _ _ Ha) as (_ & Hca & _). destruct (Hprint _ _ Hb) as (_ & Hcb & _).
    apply source_key_text_inj in Heq as [_ Hk]; [|done..].
    rewrite (Hinv _ _ Ha), (Hinv _ _ Hb) in Hk. subst k2.
    rewrite Ha in Hb. by simplify_eq. }
  apply NoDup_Permutation.
  - apply NoDup_map_to_list.
  - by eapply NoDup_fmap_1.
  - intros [t v]. rewrite elem_of_map_to_list. unfold StringMap.
    rewrite StringMap_from_eq. by apply foldl_insert_empty.
Qed.

Lemma Map2Labels_StringMap_eq σ mt :
  stored_under_key mt →
  (∀ k lbl, mt !! k = Some lbl → source_splits lbl) →
  Map2Labels σ (StringMap mt) ""
    = Some (<[fresh (dom σ) := mt]> σ, LRef (fresh (dom σ))).
Proof.
  intros Hinv Hprint. unfold Map2Labels.
  set (f := λ e : string * Label,
              ((Source e.2 ++ ":" ++ Key e.2)%string, Value e.2)).
  set (h := λ e : string * string, default zeroLabel (NewLabel e.1 e.2 "")).
  pose proof (StringMap_entries mt Hinv Hprint) as Hperm. fold f in Hperm.
  set (order := map_to_list (StringMap mt)) in *.
  rewrite (Map2Labels_from_eq _ _ _ (h <$> order)).
  2:{ apply Forall2_fmap_r, Forall_Forall2_diag, Forall_forall.
      intros [k v] _. unfold h. simpl.
      by destruct (NewLabel_total k v "") as [lbl ->]. }
  do 3 f_equal.
  assert ((λ lbl, (Key lbl, lbl)) <$> (h <$> order) ≡ₚ map_to_list mt) as HW.
  { rewrite Hperm, <- !list_fmap_compose.
    rewrite (list_fmap_ext _ id (map_to_list mt)); [by rewrite list_fmap_id|].
    intros _ [k lbl] Hk%list_elem_of_lookup_2%elem_of_map_to_list.
    unfold h, f. simpl. rewrite NewLabel_text by (by apply (Hprint k)).
    simpl. by rewrite (Hinv _ _ Hk). }
  apply write_all_empty_eq.
  - rewrite HW. apply NoDup_fst_map_to_list.
  - intros k v. by rewrite HW, elem_of_map_to_list.
Qed.

End from_string_map.

(** X19: for every string map, visiting order and source argument,
    [Map2Labels] returns a reference to a new map object in which every
    label is stored under its own key and is the [NewLabel] of one of the
    visited pairs; when the source argument is not empty, every label of
    the result has that source. *)
Theorem Map2Labels_invariant (entries : list (string * string))
    (σ : gmap positive (gmap string Label)) (source : string) :
  ∃ σ' p, Map2Labels_from entries σ source = Some (σ', LRef p)
    ∧ (p ∉ dom σ)
    ∧ (∀ q, q ∈ dom σ → σ' !! q = σ !! q)
    ∧ stored_under_key (contents σ' (LRef p))
    ∧ (∀ k lbl, contents σ' (LRef p) !! k = Some lbl →
         ∃ k0 v0, (k0, v0) ∈ entries ∧ NewLabel k0 v0 source = Some lbl)
    ∧ (source ≠ "" →
         ∀ k lbl, contents σ' (LRef p) !! k = Some lbl → Source lbl = source).
Proof.
  destruct (NewLabel_all entries source) as [lbls Hall].
  rewrite (Map2Labels_from_eq _ _ _ lbls) by done.
  eexists _, _. split; [done|]. split; [apply is_fresh|].
  split; [intros q; apply insert_fresh_old|].
  cbn [contents]. rewrite lookup_insert_eq. cbn [from_option id].
  assert (∀ k lbl, write_all ∅ ((λ lbl, (Key lbl, lbl)) <$> lbls) !! k = Some lbl →
            Key lbl = k
            ∧ ∃ k0 v0, (k0, v0) ∈ entries ∧ NewLabel k0 v0 source = Some lbl) as Hin.
  { intros k lbl [Hin|Hin]%write_all_lookup_in; [|by rewrite lookup_empty in Hin].
    apply list_elem_of_fmap in Hin as (lbl' & [= -> ->] & Hlbl).
    split; [done|].
    apply list_elem_of_lookup in Hlbl as [i Hi].
    destruct (Forall2_lookup_r _ _ _ _ _ Hall Hi) as ([k0 v0] & He & Hnew).
    exists k0, v0. split; [|done]. by apply list_elem_of_lookup_2 in He. }
  split; [|split].
  - intros k lbl [Hk _]%Hin. done.
  - intros k lbl [_ Hsrc]%Hin. done.
  - intros Hsource k lbl [_ (k0 & v0 & _ & Hnew)]%Hin.
    by apply (NewLabel_Some_source k0 v0).
Qed.

(** X20: for a label set that stores every label under its own key and
    whose labels have a non-empty source without colon or dollar sign and
    a non-empty key (which may hold an equals sign), [Map2Labels] with an
    empty source argument applied to the [StringMap] of the set returns a
    new map object with the same contents. *)
Theorem Map2Labels_StringMap (σ : gmap positive (gmap string Label))
    (l : gmap string Label) :
  stored_under_key l →
  (∀ k lbl, l !! k = Some lbl → source_splits lbl) →
  ∃ σ' p, Map2Labels σ (StringMap l) "" = Some (σ', LRef p)
    ∧ (p ∉ dom σ)
    ∧ contents σ' (LRef p) = l.
Proof.
  intros Hinv Hsplits. rewrite Map2Labels_StringMap_eq by done.
  eexists _, _. split; [done|]. split; [apply is_fresh|].
  cbn [contents]. by rewrite lookup_insert_eq.
Qed.

Lemma equals_in_key_example_cases (k : string) (lbl : Label) :
  equals_in_key_example !! k = Some lbl →
  (k = "a=b" ∧ lbl = mkLabel "a=b" "v" "k8s")
  ∨ (k = "host" ∧ lbl = mkLabel "host" "" "reserved").
Proof.
  unfold equals_in_key_example.
  rewrite lookup_insert_Some, lookup_singleton_Some.
  intros [[<- <-]|[_ [<- <-]]]; auto.
Qed.

Lemma Map2Labels_StringMap_witness :
  ∃ σ' p, Map2Labels ∅ (StringMap equals_in_key_example) "" = Some (σ', LRef p)
    ∧ (p ∉ dom (∅ : gmap positive (gmap string Label)))
    ∧ contents σ' (LRef p) = equals_in_key_example.
Proof.
  apply (Map2Labels_StringMap ∅ equals_in_key_example).
  - intros k lbl [[-> ->]|[-> ->]]%equals_in_key_example_cases; reflexivity.
  - intros k lbl [[-> ->]|[-> ->]]%equals_in_key_example_cases;
      unfold source_splits; cbn [Source Key]; repeat split;
      first [ discriminate | apply (bool_decide_unpack _); vm_compute; exact I ].
Defined.

(** ** A label built from parts and a label parsed from text *)

Section built_and_parsed.

Implicit Types (s t p r key value src next : string) (c a : ascii).

Lemma take_drop_string n s : s = (take n s ++ drop n s)%string.
Proof.
  revert s. induction n as [|n IH]; intros [|a s]; cbn [take drop]; [done..|].
  rewrite app_String. f_equal. apply IH.
Qed.

Lemma HasPrefix_true_iff s p :
  HasPrefix s p = Some true ↔ ∃ r, s = (p ++ r)%string.
Proof.
  unfold HasPrefix. pose proof (len_nonneg p) as Hp.
  destruct (Z.geb_spec (len s) (len p)) as [Hge|Hlt].
  - rewrite slice_Some by lia. cbn [mbind option_bind].
    rewrite Z.sub_0_r. change (Z.to_nat 0) with 0%nat. cbn [drop].
    change (Z.to_nat (len p)) with (Z.to_nat (Z.of_nat (String.length p))).
    rewrite Nat2Z.id. split.
    + intros [= Hb]. apply bool_decide_eq_true in Hb.
      exists (drop (String.length p) s). rewrite <- Hb at 1.
      apply take_drop_string.
    + intros [r ->]. by rewrite take_length_app, bool_decide_true.
  - split; [done|]. intros [r ->]. unfold len in Hlt.
    rewrite length_app in Hlt. lia.
Qed.

Lemma HasPrefix_false s p :
  (¬ ∃ r, s = (p ++ r)%string) → HasPrefix s p = Some false.
Proof.
  intros Hno. destruct (HasPrefix_total s p) as [[] Hb]; [|done].
  by apply HasPrefix_true_iff in Hb.
Qed.

Lemma TrimPrefix_app p r : TrimPrefix (p ++ r) p = Some r.
Proof.
  unfold TrimPrefix.
  assert (HasPrefix (p ++ r) p = Some true) as -> by (apply HasPrefix_true_iff; eauto).
  cbn [mbind option_bind]. pose proof (len_nonneg p).
  rewrite slice_from_Some.
  - unfold len. by rewrite Nat2Z.id, drop_length_app.
  - done.
  - unfold len. rewrite length_app. lia.
Qed.

Lemma elem_of_split_first c s :
  c ∈ list_ascii_of_string s →
  ∃ t r, s = (t ++ String c r)%string ∧ c ∉ list_ascii_of_string t.
Proof.
  induction s as [|a s IH]; simpl; [by intros ?%elem_of_nil|].
  destruct (decide (c = a)) as [->|Hne].
  - intros _. exists "", s. split; [done|]. simpl. apply not_elem_of_nil.
  - intros [?|Hin]%elem_of_cons; [done|].
    destruct (IH Hin) as (t & r & -> & Ht).
    exists (String a t), r. split; [done|]. simpl.
    by apply not_elem_of_cons.
Qed.

(** A text that reads as [p] followed by something still does when cut
    before a byte that [p] does not hold. *)
Lemma prefix_before_byte c p s value r :
  c ∉ list_ascii_of_string p →
  (s ++ String c value)%string = (p ++ r)%string →
  ∃ r', s = (p ++ r')%string.
Proof.
  revert s. induction p as [|a p IH]; intros s Hp Heq; [by exists s|].
  simpl in Hp. apply not_elem_of_cons in Hp as [Hne Hp].
  destruct s as [|b s]; simpl in Heq.
  - by injection Heq as -> _.
  - injection Heq as -> Heq. destruct (IH s Hp Heq) as [r' ->]. by exists r'.
Qed.

(** [parseSource] at the first delimiter, for a source part that may be
    empty. *)
Lemma parseSource_split t r delim :
  delim ∉ list_ascii_of_string t →
  delim ≠ "$"%char →
  (∀ t', t ≠ String "$" t') →
  parseSource (t ++ String delim r) delim = Some (t, r).
Proof.
  intros Hdelim Hd Hdollar. unfold parseSource.
  assert (∃ a, index (t ++ String delim r) 0 = Some a ∧ a ≠ "$"%char)
    as (a & -> & Ha).
  { destruct t as [|a t].
    - exists delim. split; [apply index_0_String|done].
    - exists a. split; [apply index_0_String|]. intros ->. by apply (Hdollar t). }
  rewrite bool_decide_false by (by destruct t).
  cbn [mbind option_bind]. rewrite (bool_decide_false (a = _)) by done.
  rewrite IndexByte_first by done.
  pose proof (len_nonneg t).
  destruct (Z.ltb_spec (len t) 0); [lia|].
  by rewrite slice_to_app, slice_from_app.
Qed.

(** [parseSource] on a text without colon that does not start with a
    dollar sign: only the prefix [reserved.] is recognised. *)
Lemma parseSource_no_colon a s :
  a ≠ "$"%char →
  ":"%char ∉ list_ascii_of_string (String a s) →
  (∀ r, String a s = ("reserved." ++ r)%string →
     parseSource (String a s) ":" = Some (LabelSourceReserved, r))
  ∧ ((¬ ∃ r, String a s = ("reserved." ++ r)%string) →
     parseSource (String a s) ":" = Some ("", String a s)).
Proof.
  intros Ha Hcolon. unfold parseSource.
  rewrite bool_decide_false by done. rewrite index_0_String.
  cbn [mbind option_bind]. rewrite (bool_decide_false (a = _)) by done.
  rewrite IndexByte_absent by done. change (-1 <? 0) with true. cbv iota.
  rewrite (bool_decide_false (":"%char = "."%char)) by done. cbn [negb].
  split.
  - intros r Hr. rewrite Hr. change LabelSourceReservedKeyPrefix with "reserved.".
    assert (HasPrefix ("reserved." ++ r) "reserved." = Some true)
      as -> by (apply HasPrefix_true_iff; by exists r).
    cbn [mbind option_bind].
    by rewrite (TrimPrefix_app "reserved." r).
  - intros Hno. change LabelSourceReservedKeyPrefix with "reserved.".
    by rewrite HasPrefix_false.
Qed.

Lemma not_elem_of_app_string c s t :
  c ∉ list_ascii_of_string (s ++ t) ↔
  (c ∉ list_ascii_of_string s) ∧ (c ∉ list_ascii_of_string t).
Proof. rewrite list_ascii_of_string_app. apply not_elem_of_app. Qed.

Lemma parseSource_append_value key value :
  "="%char ∉ list_ascii_of_string key →
  ":"%char ∉ list_ascii_of_string value →
  ∃ src next,
    parseSource key ":" = Some (src, next)
    ∧ parseSource (key ++ String "=" value) ":" = Some (src, next ++ String "=" value)%string
    ∧ "="%char ∉ list_ascii_of_string next.
Proof.
  intros Heq Hcolon.
  assert (":"%char ∉ list_ascii_of_string (String "=" value)) as Hcolon'.
  { simpl. by apply not_elem_of_cons. }
  destruct key as [|a key].
  { exists "", "". split; [done|]. split; [|done].
    apply (proj2 (parseSource_no_colon "=" value ltac:(done) Hcolon')).
    intros [r [=]]. }
  destruct (decide (a = "$"%char)) as [->|Ha].
  { exists LabelSourceReserved, key. simpl in Heq.
    apply not_elem_of_cons in Heq as [_ Heq]. split; [|split; [|done]].
    - unfold parseSource. rewrite bool_decide_false by done.
      rewrite index_0_String. cbn [mbind option_bind].
      rewrite bool_decide_true by done.
      assert (slice_from (String "$" key) 1 = Some key) as ->
        by exact (slice_from_app "" "$" key).
      done.
    - rewrite app_String. unfold parseSource. rewrite bool_decide_false by done.
      rewrite index_0_String. cbn [mbind option_bind].
      rewrite bool_decide_true by done.
      assert (slice_from (String "$" (key ++ String "=" value)) 1
              = Some (key ++ String "=" value)%string) as ->
        by exact (slice_from_app "" "$" (key ++ String "=" value)).
      done. }
  destruct (decide (":"%char ∈ list_ascii_of_string (String a key))) as [Hin|Hout].
  - destruct (elem_of_split_first _ _ Hin) as (t & r & Hkey & Ht).
    assert (∀ t', t ≠ String "$" t') as Hdollar.
    { intros t' ->. rewrite app_String in Hkey. by injection Hkey as ->. }
    rewrite Hkey in Heq. apply not_elem_of_app_string in Heq as [_ Heq].
    simpl in Heq. apply not_elem_of_cons in Heq as [_ Heq].
    exists t, r. rewrite Hkey. split; [|split; [|done]].
    + by apply parseSource_split.
    + rewrite app_assoc_string, app_String. by apply parseSource_split.
  - assert (":"%char ∉ list_ascii_of_string (String a (key ++ String "=" value)))
      as Hout'.
    { rewrite <- app_String. by apply not_elem_of_app_string. }
    destruct (parseSource_no_colon a key Ha Hout) as [Hres Hplain].
    destruct (parseSource_no_colon a (key ++ String "=" value) Ha Hout')
      as [Hres' Hplain'].
    destruct (HasPrefix_total (String a key) "reserved.") as [[] Hhp].
    + apply HasPrefix_true_iff in Hhp as [r Hr].
      exists LabelSourceReserved, r. split; [by apply Hres|]. split.
      * rewrite app_String. apply Hres'. rewrite <- app_String, Hr.
        by rewrite app_assoc_string.
      * rewrite Hr in Heq. by apply not_elem_of_app_string in Heq as [_ ?].
    + exists "", (String a key). split; [|split; [|done]].
      * apply Hplain. intros Hex. apply HasPrefix_true_iff in Hex. congruence.
      * rewrite app_String. apply Hplain'. intros [r Hr].
        rewrite <- app_String in Hr.
        apply prefix_before_byte in Hr as Hex;
          [|apply (bool_decide_unpack _); vm_compute; exact I].
        apply HasPrefix_true_iff in Hex. congruence.
Qed.

End built_and_parsed.

(** X5: when the key text holds no equals sign and the value no colon,
    [NewLabel(key, value, "")] is the label that [ParseLabel] reads from
    the text [key=value], whatever source notation the key carries. *)
Theorem NewLabel_ParseLabel (key value : string) :
  "="%char ∉ list_ascii_of_string key →
  ":"%char ∉ list_ascii_of_string value →
  NewLabel key value "" = ParseLabel (key ++ "=" ++ value).
Proof.
  intros Heq Hcolon.
  destruct (parseSource_append_value key value Heq Hcolon)
    as (src & next & Hsrc & Hsrc' & Hnext).
  rewrite (NewLabel_parsed_source _ _ _ _ Hsrc).
  unfold ParseLabel.
  change (key ++ "=" ++ value)%string with (key ++ String "=" value)%string.
  rewrite (parseLabel_split _ _ _ _ _ Hsrc' Hnext).
  case_bool_decide as Hc; [|done]. by destruct Hc as [-> _].
Qed.

Lemma NewLabel_ParseLabel_witness :
  NewLabel "k8s:role" "backend" "" = ParseLabel ("k8s:role" ++ "=" ++ "backend").
Proof.
  apply (NewLabel_ParseLabel "k8s:role" "backend");
    apply (bool_decide_unpack _); vm_compute; exact I.
Defined.

(** ** Kubernetes label texts *)

(** X21: for every key that is not empty and holds no equals sign, and
    every value, the text of [GenerateK8sLabelString] parses to the label
    with that key, that value and the source [k8s]; colons, semicolons
    and dollar signs in the key or the value do no harm. *)
Theorem ParseLabel_GenerateK8sLabelString (k v : string) :
  k ≠ "" → "="%char ∉ list_ascii_of_string k →
  ParseLabel (GenerateK8sLabelString k v)
    = Some {| Key := k; Value := v; Source := LabelSourceK8s |}.
Proof.
  intros Hk Heq. unfold GenerateK8sLabelString, generateLabelString.
  rewrite Sprintf_label.
  apply (ParseLabel_kv_text {| Key := k; Value := v; Source := LabelSourceK8s |}).
  unfold printable. cbn [Source Key].
  split; [done|]. split; [apply (bool_decide_unpack _); vm_compute; exact I|].
  split; [apply (bool_decide_unpack _); vm_compute; exact I|]. done.
Qed.

Lemma ParseLabel_GenerateK8sLabelString_witness :
  ParseLabel (GenerateK8sLabelString "io.kubernetes.pod:namespace" "kube-system;x")
    = Some {| Key := "io.kubernetes.pod:namespace"; Value := "kube-system;x";
              Source := LabelSourceK8s |}.
Proof.
  apply (ParseLabel_GenerateK8sLabelString "io.kubernetes.pod:namespace" "kube-system;x").
  - discriminate.
  - apply (bool_decide_unpack _). vm_compute. exact I.
Defined.

(** ** Equality of label sets is symmetric *)

(** X22: although [Labels.Equals] walks the receiver only, the answer
    does not depend on which of the two sets is the receiver; and unlike
    [Label.Equals] it does not treat the source [any] as a wildcard. *)
Theorem Labels_Equals_symmetric :
  (∀ l other : gmap string Label, Labels_Equals l other = Labels_Equals other l)
  ∧ (∀ k v,
       Label_Equals (mkLabel k v LabelSourceAny) (mkLabel k v LabelSourceK8s) = true
       ∧ Labels_Equals {[ k := mkLabel k v LabelSourceAny ]}
                       {[ k := mkLabel k v LabelSourceK8s ]} = false).
Proof.
  split.
  - intros l other. apply eq_true_iff_eq. rewrite !Labels_Equals_eq.
    split; by intros ->.
  - intros k v. split; [by apply Label_Equals_true; simpl; auto|].
    apply not_true_iff_false. rewrite Labels_Equals_eq.
    intros Heq. apply (f_equal (λ m : gmap string Label, m !! k)) in Heq.
    rewrite !lookup_singleton_eq in Heq. discriminate.
Qed.

(** ** The documented forms and the default source *)

(** C4: [ParseLabel "$host"] is the reserved label [host] without value
    and [ParseLabel "k8s:role=backend"] is the label [role=backend] of
    source [k8s].  For every input without source, that is every text for
    which [parseSource] returns the empty source, [ParseLabel] assigns the
    source [unspec] and [ParseSelectLabel] returns the same key and value
    with the source [any]; [role=backend] is such an input, and so is
    every text that holds no colon and starts neither with a dollar sign
    nor with [reserved.]. *)
Theorem ParseLabel_documented_forms :
  ParseLabel "$host"
    = Some {| Key := "host"; Value := ""; Source := "reserved" |}
  ∧ ParseLabel "k8s:role=backend"
    = Some {| Key := "role"; Value := "backend"; Source := "k8s" |}
  ∧ ParseLabel "role=backend"
    = Some {| Key := "role"; Value := "backend"; Source := "unspec" |}
  ∧ ParseSelectLabel "role=backend"
    = Some {| Key := "role"; Value := "backend"; Source := "any" |}
  ∧ (∀ str next, parseSource str ":" = Some ("", next) →
       ∃ lbl, ParseLabel str = Some lbl
         ∧ Source lbl = LabelSourceUnspec
         ∧ ParseSelectLabel str
           = Some {| Key := Key lbl; Value := Value lbl; Source := LabelSourceAny |})
  ∧ (∀ str, ":"%char ∉ list_ascii_of_string str →
       (∀ r, str ≠ ("$" ++ r)%string) →
       (∀ r, str ≠ ("reserved." ++ r)%string) →
       parseSource str ":" = Some ("", str)).
Proof.
  do 4 (split; [vm_compute; reflexivity|]). split.
  - intros str next Hsrc.
    destruct (parseLabel_Source _ _ _ _ Hsrc) as (lbl & Hlbl & HS).
    rewrite bool_decide_true in HS by done.
    exists lbl. split; [done|]. split; [done|].
    unfold ParseSelectLabel, parseSelectLabel. rewrite Hlbl.
    cbn [mbind option_bind]. by rewrite bool_decide_true.
  - intros [|a s] Hcolon Hdollar Hreserved; [done|].
    apply (parseSource_no_colon a s); [|done|].
    + intros ->. by apply (Hdollar s).
    + intros [r Hr]. by apply (Hreserved r).
Qed.

(** The text [region=eu] has no source. *)
Lemma ParseLabel_documented_forms_witness :
  ∃ lbl, ParseLabel "region=eu" = Some lbl
    ∧ Source lbl = LabelSourceUnspec
    ∧ ParseSelectLabel "region=eu"
      = Some {| Key := Key lbl; Value := Value lbl; Source := LabelSourceAny |}.
Proof.
  destruct ParseLabel_documented_forms as (_ & _ & _ & _ & Hdefault & Hplain).
  apply (Hdefault "region=eu" "region=eu"). apply Hplain.
  - apply (bool_decide_unpack _). vm_compute. exact I.
  - intros r. discriminate.
  - intros r. discriminate.
Defined.
